(** * Comment-frame cleanup of [fix_comments.py]

    A shallow embedding of [src/python/fix_comments.py]: the functions
    [fix_comment_fields], [batch_fix] and the command-line entry point,
    over a model of the tag library they call ([ID3(path)], [del audio[key]],
    [audio.save()]) and of the console.

    Python strings are Rocq strings, one [ascii] per character.  A tag set
    (the dict-like [ID3] object) is a [gmap] from frame keys to frames; its
    iteration order is the order of [map_to_list], which need not be the
    order of the frames in the file: where the script iterates over the
    dict unsorted, the order of the lines printed and of the deletions is
    that of the model, and no statement below depends on it. *)

From Stdlib Require Import String Ascii List Bool Arith Lia Sorted.
From stdpp Require Import gmap strings list fin_maps.

Open Scope string_scope.
Open Scope list_scope.
Set Warnings "-clear-no-such-hyp".

(** ** Frames, tag sets and files *)

(** The attributes of a frame object that the scripts read.  [None] stands
    for an attribute the object does not have ([hasattr] is false): a COMM
    frame has all of them, a TXXX frame has no [lang], an APIC frame has no
    [text]. *)
Record Frame := mkFrame {
  desc : option string;
  lang : option string;
  text : option (list string);
  encoding : option nat
}.

(** What a path holds: a file the tag library can load, with its tag set,
    or a file it cannot (no tag header, truncated, not an MP3). *)
Inductive File :=
  | Tagged (tags : gmap string Frame)
  | Corrupt.

(** ** Exceptions, console lines and library calls *)

Inductive Exn :=
  | LoadError (filepath : string)   (* raised by [ID3(filepath)] *)
  | KeyError (key : string)         (* raised by [del audio[key]] *)
  | IndexError                      (* [sys.argv[i]] out of range *)
  | ValueError                      (* [sys.argv.index] of an absent item *)
  | SystemExit (code : nat).        (* raised by [sys.exit(code)] *)

(** [except Exception] catches every exception but [SystemExit], which
    derives from [BaseException] only. *)
Definition is_Exception (e : Exn) : bool :=
  match e with
  | SystemExit _ => false
  | _ => true
  end.

(** One constructor for each [print] (or block of consecutive [print]s) of
    the script; the layout of the text is left out. *)
Inductive Msg :=
  | MBanner (filepath : string)                           (* lines 17-19 *)
  | MBeforeHeader                                         (* lines 24-25 *)
  | MBeforeEntry (key d text_preview : string)            (* lines 31-33 *)
  | MKeeping (key txt : string)                           (* line 48 *)
  | MWillRemoveLegacy (key d text_preview : string)       (* lines 53-55 *)
  | MWillRemoveEmpty (key text_preview : string)          (* lines 60-63 *)
  | MKeepingOther (key d l : string)                      (* lines 66-68 *)
  | MNoProblem                                            (* line 71 *)
  | MDryRun (n : nat)                                     (* lines 75-79 *)
  | MApplied (n : nat)                                    (* lines 88-91 *)
  | MAfterHeader                                          (* lines 94-95 *)
  | MAfterEntry (key d txt : string)                      (* lines 101-103 *)
  | MFixedOK                                              (* line 105 *)
  | MError (e : Exn)                                      (* line 108 *)
  | MFound (n : nat) (directory : string)                 (* lines 119-120 *)
  | MBatchFile (filepath : string)                        (* line 145 *)
  | MSummary (fixed_count : nat)                          (* lines 151-153 *)
  | MUsage                                                (* lines 157-165 *)
  | MBatchNeedsDir.                                       (* line 177 *)

(** The calls into the tag library, in the order they are made. *)
Inductive LibCall :=
  | CLoad (filepath : string)
  | CDel (key : string)
  | CSave (filepath : string).

(** ** The world the script runs in *)

Record World := mkWorld {
  disk : gmap string File;          (* the files, by path *)
  glob : string → list string;      (* [glob.glob(dir/**/*.mp3, recursive)] *)
  stdout : list Msg;                (* what was printed so far *)
  stderr : list Exn;                (* tracebacks printed so far *)
  calls : list LibCall              (* library calls made so far *)
}.

Definition emit (m : Msg) (w : World) : World :=
  mkWorld (disk w) (glob w) (stdout w ++ [m]) (stderr w) (calls w).

Definition emit_err (e : Exn) (w : World) : World :=
  mkWorld (disk w) (glob w) (stdout w) (stderr w ++ [e]) (calls w).

Definition log_call (c : LibCall) (w : World) : World :=
  mkWorld (disk w) (glob w) (stdout w) (stderr w) (calls w ++ [c]).

Definition set_disk (d : gmap string File) (w : World) : World :=
  mkWorld d (glob w) (stdout w) (stderr w) (calls w).

(** ** A state-and-exception monad for the statements of the script *)

Definition M (A : Type) : Type := World → World * (Exn + A).

#[global] Instance M_ret : MRet M := λ A x w, (w, inr x).

#[global] Instance M_bind : MBind M := λ A B f c w,
  match c w with
  | (w', inr x) => f x w'
  | (w', inl e) => (w', inl e)
  end.

Definition raise {A} (e : Exn) : M A := λ w, (w, inl e).

(** [print(...)].  The console is taken to accept every line: a [print]
    that raises (a closed pipe, an encoding without the characters of the
    line) is outside this model. *)
Definition print (m : Msg) : M unit := λ w, (emit m w, inr tt).

(** [traceback.print_exc()]. *)
Definition print_exc (e : Exn) : M unit := λ w, (emit_err e w, inr tt).

(** [try: body except Exception as e: handler e]. *)
Definition try_except {A} (body : M A) (handler : Exn → M A) : M A := λ w,
  match body w with
  | (w', inl e) => if is_Exception e then handler e w' else (w', inl e)
  | r => r
  end.

(** [try: body except: handler], which catches everything. *)
Definition try_bare {A} (body : M A) (handler : M A) : M A := λ w,
  match body w with
  | (w', inl _) => handler w'
  | r => r
  end.

(** [for x in l: body x]. *)
Fixpoint for_ {A} (l : list A) (body : A → M unit) : M unit :=
  match l with
  | [] => mret tt
  | x :: l' => body x ;; for_ l' body
  end.

(** [for x in l: st = body x st], a loop that updates local variables. *)
Fixpoint for_acc {A S} (l : list A) (body : A → S → M S) (st : S) : M S :=
  match l with
  | [] => mret st
  | x :: l' => st' ← body x st; for_acc l' body st'
  end.

(** ** The tag library *)

(** [ID3(filepath)]: load the tag set of a file, or raise. *)
Definition ID3 (filepath : string) : M (gmap string Frame) := λ w,
  match disk w !! filepath with
  | Some (Tagged tags) => (log_call (CLoad filepath) w, inr tags)
  | _ => (log_call (CLoad filepath) w, inl (LoadError filepath))
  end.

(** [del audio[key]]: a dict deletion, which raises on an absent key. *)
Definition del_item (key : string) (audio : gmap string Frame)
  : M (gmap string Frame) := λ w,
  match audio !! key with
  | Some _ => (log_call (CDel key) w, inr (delete key audio))
  | None => (log_call (CDel key) w, inl (KeyError key))
  end.

(** [audio.save()] of a tag set loaded from [filepath]: the file now holds
    the in-memory tag set.  The save is taken to succeed: a file that loads
    but cannot be written (read-only, locked), on which the real call raises
    and lines 107-110 report the exception, is outside this model. *)
Definition save (filepath : string) (audio : gmap string Frame) : M unit := λ w,
  (log_call (CSave filepath) (set_disk (<[filepath := Tagged audio]> (disk w)) w),
   inr tt).

(** ** Helpers for the expressions of the script *)

(** [value.text[0] if hasattr(value, 'text') and value.text else ''] *)
Definition first_text (value : Frame) : string :=
  match text value with
  | Some (t :: _) => t
  | _ => ""
  end.

(** [text[:n] + "..." if len(text) > n else text] *)
Definition preview (n : nat) (txt : string) : string :=
  if (n <? String.length txt)%nat then (substring 0 n txt ++ "...")%string else txt.

(** [sorted(audio.items())]: the keys of a dict are distinct, so the pairs
    are ordered by key. *)
Fixpoint insert_sorted (kv : string * Frame) (l : list (string * Frame))
  : list (string * Frame) :=
  match l with
  | [] => [kv]
  | kv' :: l' =>
      if String.leb kv.1 kv'.1 then kv :: l else kv' :: insert_sorted kv l'
  end.

Definition sorted_items (audio : gmap string Frame) : list (string * Frame) :=
  foldr insert_sorted [] (map_to_list audio).

(** ** [fix_comment_fields] *)

(** The local variables of the classification loop (lines 36-37). *)
Record Scan := mkScan {
  to_remove : list string;
  custom1_value : option string
}.

(** The body of the loop of lines 39-68. *)
Definition classify_frame (kv : string * Frame) (st : Scan) : M Scan :=
  let '(key, value) := kv in
  if String.prefix "COMM" key then
    let d := default "" (desc value) in
    let l := default "" (lang value) in
    let txt := first_text value in
    if String.eqb d "Songs-DB_Custom1" then
      print (MKeeping key txt);;
      mret (mkScan (to_remove st) (Some txt))
    else if String.eqb d "ID3v1 Comment" && String.eqb l "eng" then
      print (MWillRemoveLegacy key d (preview 50 txt));;
      mret (mkScan (to_remove st ++ [key]) (custom1_value st))
    else if String.eqb d "" && String.eqb l "XXX" then
      print (MWillRemoveEmpty key (preview 50 txt));;
      mret (mkScan (to_remove st ++ [key]) (custom1_value st))
    else
      print (MKeepingOther key d l);;
      mret st
  else mret st.

(** The listing loops of lines 26-33 and 97-103. *)
Definition show_before (kv : string * Frame) : M unit :=
  let '(key, value) := kv in
  if String.prefix "COMM" key then
    print (MBeforeEntry key (default "Unknown" (desc value))
             (preview 60 (first_text value)))
  else mret tt.

Definition show_after (kv : string * Frame) : M unit :=
  let '(key, value) := kv in
  if String.prefix "COMM" key then
    print (MAfterEntry key (default "Unknown" (desc value)) (first_text value))
  else mret tt.

(** The body of the [try] block, lines 22-105. *)
Definition fix_comment_fields_try (filepath : string) (dry_run : bool) : M unit :=
  audio ← ID3 filepath;
  print MBeforeHeader;;
  for_ (sorted_items audio) show_before;;
  st ← for_acc (map_to_list audio) classify_frame (mkScan [] None);
  match to_remove st with
  | [] => print MNoProblem
  | _ :: _ =>
      if dry_run then print (MDryRun (length (to_remove st)))
      else
        audio' ← for_acc (to_remove st) del_item audio;
        save filepath audio';;
        print (MApplied (length (to_remove st)));;
        print MAfterHeader;;
        audio2 ← ID3 filepath;
        for_ (sorted_items audio2) show_after;;
        print MFixedOK
  end.

Definition fix_comment_fields (filepath : string) (dry_run : bool) : M unit :=
  print (MBanner filepath);;
  try_except (fix_comment_fields_try filepath dry_run)
             (λ e, print (MError e);; print_exc e).

(** ** [batch_fix] *)

(** The local variables of the pre-check loop (lines 127-129). *)
Record Check := mkCheck {
  has_problem : bool;
  comm_count : nat;
  has_custom1 : bool
}.

(** The body of the loop of lines 131-141. *)
Definition check_frame (c : Check) (kv : string * Frame) : Check :=
  let '(key, value) := kv in
  if String.prefix "COMM" key then
    let d := default "" (desc value) in
    let l := default "" (lang value) in
    if String.eqb d "Songs-DB_Custom1" then
      mkCheck (has_problem c) (S (comm_count c)) true
    else if (String.eqb d "ID3v1 Comment" && String.eqb l "eng")
            || (String.eqb d "" && String.eqb l "XXX") then
      mkCheck true (S (comm_count c)) (has_custom1 c)
    else
      mkCheck (has_problem c) (S (comm_count c)) (has_custom1 c)
  else c.

(** The body of the loop over the files, lines 124-149. *)
Definition batch_file (dry_run : bool) (filepath : string) (fixed_count : nat)
  : M nat :=
  try_bare
    (audio ← ID3 filepath;
     let c := foldl check_frame (mkCheck false 0 false) (map_to_list audio) in
     if has_problem c then
       print (MBatchFile filepath);;
       fix_comment_fields filepath dry_run;;
       mret (S fixed_count)
     else mret fixed_count)
    (mret fixed_count).

Definition batch_fix (directory : string) (dry_run : bool) : M unit := λ w,
  let files := glob w directory in
  (print (MFound (length files) directory);;
   fixed_count ← for_acc files (batch_file dry_run) 0;
   print (MSummary fixed_count)) w.

(** ** The entry point, lines 155-180 *)

(** [sys.argv.index(x)] *)
Fixpoint index (x : string) (l : list string) : option nat :=
  match l with
  | [] => None
  | y :: l' => if String.eqb y x then Some 0 else S <$> index x l'
  end.

(** [sys.argv[i]] *)
Definition item (i : nat) (l : list string) : M string :=
  match l !! i with
  | Some x => mret x
  | None => raise IndexError
  end.

Definition main (argv : list string) : M unit :=
  if (length argv <? 2)%nat then
    print MUsage;;
    raise (SystemExit 1)
  else
    let apply_changes := bool_decide ("--apply" ∈ argv) in
    let dry_run := negb apply_changes in
    if bool_decide ("--batch" ∈ argv) then
      match index "--batch" argv with
      | Some batch_idx =>
          if (batch_idx + 1 <? length argv)%nat then
            directory ← item (batch_idx + 1) argv;
            batch_fix directory dry_run
          else print MBatchNeedsDir
      | None => raise ValueError
      end
    else
      filepath ← item 1 argv;
      fix_comment_fields filepath dry_run.

(** Running the script as a process: the final world and the exit status.
    An uncaught exception prints its traceback and exits with status 1. *)
Definition run_script (argv : list string) (w : World) : World * nat :=
  match main argv w with
  | (w', inr _) => (w', 0)
  | (w', inl (SystemExit code)) => (w', code)
  | (w', inl e) => (emit_err e w', 1)
  end.

(** * What the statements compute *)

(** ** The removal test, as one boolean *)

Definition is_comm (kv : string * Frame) : bool := String.prefix "COMM" kv.1.

Definition desc_of (value : Frame) : string := default "" (desc value).
Definition lang_of (value : Frame) : string := default "" (lang value).

(** A frame the loop of lines 39-68 appends to [to_remove]. *)
Definition removable (kv : string * Frame) : bool :=
  is_comm kv
  && negb (String.eqb (desc_of kv.2) "Songs-DB_Custom1")
  && ((String.eqb (desc_of kv.2) "ID3v1 Comment" && String.eqb (lang_of kv.2) "eng")
      || (String.eqb (desc_of kv.2) "" && String.eqb (lang_of kv.2) "XXX")).

(** The tag set without its removable frames. *)
Definition cleaned (audio : gmap string Frame) : gmap string Frame :=
  filter (λ kv, removable kv = false) audio.

(** The keys the classification loop collects, in iteration order. *)
Definition removed_keys (audio : gmap string Frame) : list string :=
  (filter (λ kv, removable kv = true) (map_to_list audio)).*1.

(** ** The lines each loop prints *)

Definition before_msg (kv : string * Frame) : list Msg :=
  if is_comm kv then
    [MBeforeEntry kv.1 (default "Unknown" (desc kv.2)) (preview 60 (first_text kv.2))]
  else [].

Definition after_msg (kv : string * Frame) : list Msg :=
  if is_comm kv then
    [MAfterEntry kv.1 (default "Unknown" (desc kv.2)) (first_text kv.2)]
  else [].

Definition classify_msg (kv : string * Frame) : list Msg :=
  if is_comm kv then
    if String.eqb (desc_of kv.2) "Songs-DB_Custom1" then
      [MKeeping kv.1 (first_text kv.2)]
    else if String.eqb (desc_of kv.2) "ID3v1 Comment" && String.eqb (lang_of kv.2) "eng" then
      [MWillRemoveLegacy kv.1 (desc_of kv.2) (preview 50 (first_text kv.2))]
    else if String.eqb (desc_of kv.2) "" && String.eqb (lang_of kv.2) "XXX" then
      [MWillRemoveEmpty kv.1 (preview 50 (first_text kv.2))]
    else [MKeepingOther kv.1 (desc_of kv.2) (lang_of kv.2)]
  else [].

Definition classify_custom1 (c : option string) (kv : string * Frame) : option string :=
  if is_comm kv && String.eqb (desc_of kv.2) "Songs-DB_Custom1"
  then Some (first_text kv.2) else c.

Definition before_msgs (audio : gmap string Frame) : list Msg :=
  flat_map before_msg (sorted_items audio).
Definition after_msgs (audio : gmap string Frame) : list Msg :=
  flat_map after_msg (sorted_items audio).
Definition classify_msgs (audio : gmap string Frame) : list Msg :=
  flat_map classify_msg (map_to_list audio).

(** The lines printed up to the test of [to_remove] (line 70). *)
Definition report (filepath : string) (audio : gmap string Frame) : list Msg :=
  [MBanner filepath; MBeforeHeader] ++ before_msgs audio ++ classify_msgs audio.

(** ** The decision table of the specification *)

(** The classes of the specification's decision table. *)
Inductive Class := Preserve | Remove | PreserveOther.

(** The decision table as the specification words it, on the description
    and the language of a COMM frame. *)
Definition spec_class (description language : string) : Class :=
  if decide (description = "Songs-DB_Custom1") then Preserve
  else if decide (description = "ID3v1 Comment" ∧ language = "eng") then Remove
  else if decide (description = "" ∧ language = "XXX") then Remove
  else PreserveOther.

(** The class a printed line announces for a frame: "Keeping", "Will
    remove" and "Keeping other field". *)
Definition verdict (m : Msg) : option (string * Class) :=
  match m with
  | MKeeping key _ => Some (key, Preserve)
  | MWillRemoveLegacy key _ _ => Some (key, Remove)
  | MWillRemoveEmpty key _ => Some (key, Remove)
  | MKeepingOther key _ _ => Some (key, PreserveOther)
  | _ => None
  end.

(** The removal rules as the specification words them. *)
Definition matches_removal_rule (value : Frame) : Prop :=
  (desc_of value = "ID3v1 Comment" ∧ lang_of value = "eng")
  ∨ (desc_of value = "" ∧ lang_of value = "XXX").

(** ** Observations on a run *)

(** The tag set the file of [w] at [filepath] holds, if it loads. *)
Definition tags_at (w : World) (filepath : string) : option (gmap string Frame) :=
  match disk w !! filepath with
  | Some (Tagged audio) => Some audio
  | _ => None
  end.

(** The paths a run of [fix_comment_fields] was started on: each run prints
    its banner first (lines 17-19), and nothing else prints one. *)
Definition banners (out : list Msg) : list string :=
  omap (λ m, match m with MBanner filepath => Some filepath | _ => None end) out.

(** The file at [filepath] loads and has a removable frame. *)
Definition needs_fix (d : gmap string File) (filepath : string) : bool :=
  match d !! filepath with
  | Some (Tagged audio) => existsb removable (map_to_list audio)
  | _ => false
  end.

(** ** Sample data: the scenario of the specification and its variants *)

Definition comm (d l t : string) : Frame :=
  mkFrame (Some d) (Some l) (Some [t]) (Some 3).

Definition title (t : string) : Frame :=
  mkFrame None None (Some [t]) (Some 3).

Definition scenario_tags : gmap string Frame :=
  <["COMM::eng" := comm "" "eng" "dup"]>
  (<["COMM:ID3v1 Comment:eng" := comm "ID3v1 Comment" "eng" "legacy"]>
  (<["COMM:Songs-DB_Custom1:XXX" := comm "Songs-DB_Custom1" "XXX" "keep me"]> ∅)).

Definition no_files (directory : string) : list string := [].

Definition scenario_world : World :=
  mkWorld {["song.mp3" := Tagged scenario_tags]} no_files [] [] [].

(** The scenario with a title frame and a user-defined text frame added. *)
Definition titled_tags : gmap string Frame :=
  <["TIT2" := title "Song"]>
  (<["TXXX:Songs-DB_Custom1" := mkFrame (Some "Songs-DB_Custom1") None (Some ["x"]) (Some 3)]>
   scenario_tags).

Definition titled_world : World :=
  mkWorld {["song.mp3" := Tagged titled_tags]} no_files [] [] [].

(** A tag set without comment frames, and one whose comment frames match
    no removal rule. *)
Definition plain_tags : gmap string Frame := {["TIT2" := title "Song"]}.

Definition tidy_tags : gmap string Frame :=
  <["COMM::eng" := comm "" "eng" "dup"]>
  (<["COMM:Songs-DB_Custom1:XXX" := comm "Songs-DB_Custom1" "XXX" "keep me"]> plain_tags).

Definition tidy_world : World :=
  mkWorld {["song.mp3" := Tagged tidy_tags]} no_files [] [] [].

(** A directory of three files, the second of which cannot be loaded, and
    the same directory with a second file that can. *)
Definition three_files (directory : string) : list string :=
  ["a.mp3"; "b.mp3"; "c.mp3"].

Definition one_corrupt_world : World :=
  mkWorld (<["a.mp3" := Tagged tidy_tags]>
           (<["b.mp3" := Corrupt]> {["c.mp3" := Tagged plain_tags]}))
          three_files [] [] [].

Definition all_good_world : World :=
  mkWorld (<["a.mp3" := Tagged tidy_tags]>
           (<["b.mp3" := Tagged plain_tags]> {["c.mp3" := Tagged plain_tags]}))
          three_files [] [] [].

(** Two files to fix and a corrupt one between them. *)
Definition mixed_world : World :=
  mkWorld (<["a.mp3" := Tagged scenario_tags]>
           (<["b.mp3" := Corrupt]> {["c.mp3" := Tagged titled_tags]}))
          three_files [] [] [].

(** ** Further observations *)

(** The entries of the BEFORE listing among printed lines (lines 31-33):
    key, description and text preview. *)
Definition before_entries (out : list Msg) : list (string * string * string) :=
  omap (λ m, match m with MBeforeEntry key d t => Some (key, d, t) | _ => None end) out.

(** The file at [filepath] is one the tag library loads. *)
Definition loadable (d : gmap string File) (filepath : string) : bool :=
  match d !! filepath with
  | Some (Tagged _) => true
  | _ => false
  end.


(** What an applying run of [fix_comment_fields] leaves of the file at
    [filepath]. *)
Definition clean_file (d : gmap string File) (filepath : string) : gmap string File :=
  match d !! filepath with
  | Some (Tagged audio) => <[filepath := Tagged (cleaned audio)]> d
  | _ => d
  end.

(** The order of [sorted] on the items of a dict. *)
Definition key_le (a b : string * Frame) : Prop := String.leb a.1 b.1 = true.

(** A long comment, for the previews. *)
Definition long_text : string :=
  "0123456789012345678901234567890123456789012345678901234567890123456789".

(** The directory of [mixed_world] without the file that does not load. *)
Definition loadable_files (directory : string) : list string := ["a.mp3"; "c.mp3"].

Definition loadable_only_world : World :=
  mkWorld (disk mixed_world) loadable_files [] [] [].

(** The directory of [mixed_world], listed in another order. *)
Definition shuffled_files (directory : string) : list string :=
  ["c.mp3"; "a.mp3"; "b.mp3"].

Definition shuffled_world : World :=
  mkWorld (disk mixed_world) shuffled_files [] [] [].

(** * The loops, run *)

Lemma for_show_before l w :
  for_ l show_before w =
  (mkWorld (disk w) (glob w) (stdout w ++ flat_map before_msg l) (stderr w) (calls w),
   inr tt).
Proof.
  revert w. induction l as [|[key value] l IH]; intros [d g o e c]; simpl.
  - by rewrite app_nil_r.
  - unfold mbind, M_bind, show_before, before_msg, is_comm; simpl.
    destruct (String.prefix "COMM" key); simpl; rewrite IH; simpl.
    + by rewrite <- app_assoc.
    + done.
Qed.

Lemma for_show_after l w :
  for_ l show_after w =
  (mkWorld (disk w) (glob w) (stdout w ++ flat_map after_msg l) (stderr w) (calls w),
   inr tt).
Proof.
  revert w. induction l as [|[key value] l IH]; intros [d g o e c]; simpl.
  - by rewrite app_nil_r.
  - unfold mbind, M_bind, show_after, after_msg, is_comm; simpl.
    destruct (String.prefix "COMM" key); simpl; rewrite IH; simpl.
    + by rewrite <- app_assoc.
    + done.
Qed.

Lemma for_classify_frame l st w :
  for_acc l classify_frame st w =
  (mkWorld (disk w) (glob w) (stdout w ++ flat_map classify_msg l) (stderr w) (calls w),
   inr (mkScan (to_remove st ++ (filter (λ kv, removable kv = true) l).*1)
               (foldl classify_custom1 (custom1_value st) l))).
Proof.
  revert st w. induction l as [|[key value] l IH]; intros [rm cv] [d g o e c]; simpl.
  - by rewrite !app_nil_r.
  - unfold mbind, M_bind. unfold classify_frame at 1.
    rewrite filter_cons.
    unfold classify_msg, classify_custom1 at 2, removable, is_comm, desc_of, lang_of; simpl.
    destruct (String.prefix "COMM" key); simpl; [|by rewrite IH].
    destruct (String.eqb (default "" (desc value)) "Songs-DB_Custom1"); simpl.
    { rewrite IH; simpl. by rewrite <- app_assoc. }
    destruct (String.eqb (default "" (desc value)) "ID3v1 Comment"
              && String.eqb (default "" (lang value)) "eng"); simpl.
    { rewrite IH; simpl. by rewrite <- !app_assoc. }
    destruct (String.eqb (default "" (desc value)) ""
              && String.eqb (default "" (lang value)) "XXX"); simpl.
    { rewrite IH; simpl. by rewrite <- !app_assoc. }
    rewrite IH; simpl. by rewrite <- app_assoc.
Qed.

(** ** Deleting the collected keys *)

Lemma lookup_cleaned (audio : gmap string Frame) key :
  cleaned audio !! key =
  match audio !! key with
  | Some value => if removable (key, value) then None else Some value
  | None => None
  end.
Proof.
  unfold cleaned. destruct (audio !! key) as [value|] eqn:E.
  - destruct (removable (key, value)) eqn:R.
    + apply map_lookup_filter_None. right. intros x Hx. simplify_eq. simpl. congruence.
    + apply map_lookup_filter_Some. done.
  - apply map_lookup_filter_None. by left.
Qed.

Lemma elem_of_removed_keys (audio : gmap string Frame) key :
  key ∈ removed_keys audio ↔ ∃ value, audio !! key = Some value ∧ removable (key, value) = true.
Proof.
  unfold removed_keys. rewrite list_elem_of_fmap. split.
  - intros [[k v] [-> [HR Hin]%list_elem_of_filter]]. simpl.
    exists v. by rewrite <- elem_of_map_to_list.
  - intros (v & Hv & HR). exists (key, v). split; [done|].
    apply list_elem_of_filter. split; [done|]. by apply elem_of_map_to_list.
Qed.

Lemma NoDup_removed_keys (audio : gmap string Frame) : NoDup (removed_keys audio).
Proof.
  unfold removed_keys.
  assert (H : NoDup (map_to_list audio).*1) by apply NoDup_fst_map_to_list.
  revert H. generalize (map_to_list audio). intros l.
  induction l as [|kv l IH]; simpl; intros H; [constructor|].
  apply NoDup_cons in H as [Hnotin Hnd].
  rewrite filter_cons. case_decide; simpl; [|by apply IH].
  apply NoDup_cons. split; [|by apply IH].
  intros Hin. apply Hnotin.
  apply list_elem_of_fmap in Hin as (kv' & -> & [_ Hin']%list_elem_of_filter).
  apply list_elem_of_fmap. eauto.
Qed.

Lemma lookup_foldl_delete (keys : list string) (audio : gmap string Frame) key :
  foldl (λ m k, delete k m) audio keys !! key =
  if decide (key ∈ keys) then None else audio !! key.
Proof.
  revert audio. induction keys as [|k keys IH]; intros audio; simpl.
  - destruct (decide (key ∈ [])) as [H|H]; [|done]. by apply elem_of_nil in H.
  - rewrite IH. destruct (decide (key ∈ keys)) as [Hin|Hin].
    + rewrite decide_True; [done|]. by apply elem_of_cons; right.
    + destruct (decide (k = key)) as [->|Hne].
      * rewrite decide_True; [|by apply elem_of_cons; left]. apply lookup_delete_eq.
      * rewrite decide_False; [by apply lookup_delete_ne|].
        intros [?|?]%elem_of_cons; congruence.
Qed.

(** The deletions of lines 82-83 never raise when the keys are distinct
    keys of the dict, and leave the dict without them. *)
Lemma for_del_item (keys : list string) (audio : gmap string Frame) w :
  NoDup keys → (∀ k, k ∈ keys → is_Some (audio !! k)) →
  for_acc keys del_item audio w =
  (mkWorld (disk w) (glob w) (stdout w) (stderr w) (calls w ++ (CDel <$> keys)),
   inr (foldl (λ m k, delete k m) audio keys)).
Proof.
  revert audio w. induction keys as [|k keys IH]; intros audio [d g o e c] Hnd Hin; simpl.
  - by rewrite app_nil_r.
  - apply NoDup_cons in Hnd as [Hk Hnd].
    unfold mbind, M_bind, del_item at 1.
    destruct (Hin k) as [v Hv]; [set_solver|]. rewrite Hv. simpl.
    rewrite IH; [|done|].
    + simpl. by rewrite <- app_assoc.
    + intros k' Hk'. rewrite lookup_delete_ne; [|set_solver]. apply Hin. set_solver.
Qed.

Lemma delete_removed_keys (audio : gmap string Frame) :
  foldl (λ m k, delete k m) audio (removed_keys audio) = cleaned audio.
Proof.
  apply map_eq. intros key. rewrite lookup_foldl_delete, lookup_cleaned.
  case_decide as H.
  - apply elem_of_removed_keys in H as (v & -> & ->). done.
  - destruct (audio !! key) as [v|] eqn:E; [|done].
    destruct (removable (key, v)) eqn:R; [|done].
    exfalso. apply H, elem_of_removed_keys. eauto.
Qed.

(** ** [fix_comment_fields], run *)

Ltac unfold_effects :=
  unfold print, print_exc, raise, save, emit, emit_err, log_call, set_disk,
    mret, M_ret; simpl.

(** The file cannot be loaded: the exception is reported, nothing else. *)
Lemma fix_comment_fields_unloadable filepath dry_run w :
  (∀ tags, disk w !! filepath ≠ Some (Tagged tags)) →
  fix_comment_fields filepath dry_run w =
  (mkWorld (disk w) (glob w)
     (stdout w ++ [MBanner filepath; MError (LoadError filepath)])
     (stderr w ++ [LoadError filepath])
     (calls w ++ [CLoad filepath]),
   inr tt).
Proof.
  intros Hload. destruct w as [d g o e c]; simpl in *.
  unfold fix_comment_fields, fix_comment_fields_try, try_except, mbind, M_bind, ID3; simpl.
  destruct (d !! filepath) as [[tags|]|] eqn:E; simpl.
  - by destruct (Hload tags).
  - unfold_effects. by rewrite <- app_assoc.
  - unfold_effects. by rewrite <- app_assoc.
Qed.

(** No frame is removable: the run stops at line 72. *)
Lemma fix_comment_fields_clean filepath dry_run w audio :
  disk w !! filepath = Some (Tagged audio) →
  removed_keys audio = [] →
  fix_comment_fields filepath dry_run w =
  (mkWorld (disk w) (glob w)
     (stdout w ++ report filepath audio ++ [MNoProblem])
     (stderr w)
     (calls w ++ [CLoad filepath]),
   inr tt).
Proof.
  intros Hload Hrm. destruct w as [d g o e c]; simpl in *.
  unfold fix_comment_fields, fix_comment_fields_try, try_except, mbind, M_bind, ID3; simpl.
  rewrite Hload; simpl.
  rewrite for_show_before; simpl. rewrite for_classify_frame; simpl.
  fold (removed_keys audio). rewrite Hrm; simpl.
  unfold_effects. unfold report, before_msgs, classify_msgs.
  by rewrite <- !app_assoc.
Qed.

(** Some frame is removable, dry run: the run stops at line 79. *)
Lemma fix_comment_fields_dry filepath w audio :
  disk w !! filepath = Some (Tagged audio) →
  removed_keys audio ≠ [] →
  fix_comment_fields filepath true w =
  (mkWorld (disk w) (glob w)
     (stdout w ++ report filepath audio ++ [MDryRun (length (removed_keys audio))])
     (stderr w)
     (calls w ++ [CLoad filepath]),
   inr tt).
Proof.
  intros Hload Hrm. destruct w as [d g o e c]; simpl in *.
  unfold fix_comment_fields, fix_comment_fields_try, try_except, mbind, M_bind, ID3; simpl.
  rewrite Hload; simpl.
  rewrite for_show_before; simpl. rewrite for_classify_frame; simpl.
  fold (removed_keys audio). destruct (removed_keys audio) as [|k ks] eqn:E; [done|]; simpl.
  unfold_effects. unfold report, before_msgs, classify_msgs.
  by rewrite <- !app_assoc.
Qed.

(** Some frame is removable, apply: the removable frames are deleted, the
    tag set is saved and loaded again. *)
Lemma fix_comment_fields_apply filepath w audio :
  disk w !! filepath = Some (Tagged audio) →
  removed_keys audio ≠ [] →
  fix_comment_fields filepath false w =
  (mkWorld (<[filepath := Tagged (cleaned audio)]> (disk w)) (glob w)
     (stdout w ++ report filepath audio
        ++ [MApplied (length (removed_keys audio)); MAfterHeader]
        ++ after_msgs (cleaned audio) ++ [MFixedOK])
     (stderr w)
     (calls w ++ [CLoad filepath] ++ (CDel <$> removed_keys audio)
        ++ [CSave filepath; CLoad filepath]),
   inr tt).
Proof.
  intros Hload Hrm. destruct w as [d g o e c]; simpl in *.
  unfold fix_comment_fields, fix_comment_fields_try, try_except, mbind, M_bind.
  unfold ID3 at 1; simpl.
  rewrite Hload; simpl.
  rewrite for_show_before; simpl. rewrite for_classify_frame; simpl.
  fold (removed_keys audio).
  pose proof (NoDup_removed_keys audio) as Hnd.
  assert (Hin : ∀ k, k ∈ removed_keys audio → is_Some (audio !! k)).
  { intros k (v & Hv & _)%elem_of_removed_keys. eauto. }
  pose proof (delete_removed_keys audio) as Hdel.
  destruct (removed_keys audio) as [|k ks] eqn:E; [done|].
  rewrite for_del_item; [|done..].
  rewrite Hdel. unfold save, ID3; simpl. rewrite lookup_insert_eq; simpl.
  rewrite for_show_after; simpl.
  unfold_effects. unfold report, before_msgs, classify_msgs, after_msgs.
  by rewrite <- !app_assoc.
Qed.

Lemma load_cases w filepath :
  (∃ audio, disk w !! filepath = Some (Tagged audio))
  ∨ (∀ tags, disk w !! filepath ≠ Some (Tagged tags)).
Proof.
  destruct (disk w !! filepath) as [[audio|]|]; [left; eauto|right; done..].
Qed.

(** The four ways a run of [fix_comment_fields] can go. *)
Ltac fix_cases filepath dry_run w audio Hload Hrm :=
  destruct (load_cases w filepath) as [[audio Hload]|Hload];
  [ destruct (decide (removed_keys audio = [])) as [Hrm|Hrm];
    [ rewrite (fix_comment_fields_clean filepath dry_run w audio Hload Hrm)
    | destruct dry_run;
      [ rewrite (fix_comment_fields_dry filepath w audio Hload Hrm)
      | rewrite (fix_comment_fields_apply filepath w audio Hload Hrm) ] ]
  | rewrite (fix_comment_fields_unloadable filepath dry_run w Hload) ].

Lemma fix_comment_fields_returns filepath dry_run w :
  (fix_comment_fields filepath dry_run w).2 = inr tt.
Proof. fix_cases filepath dry_run w audio Hload Hrm; done. Qed.

Lemma fix_comment_fields_glob filepath dry_run w :
  glob (fix_comment_fields filepath dry_run w).1 = glob w.
Proof. fix_cases filepath dry_run w audio Hload Hrm; done. Qed.

Lemma cleaned_id (audio : gmap string Frame) :
  removed_keys audio = [] → cleaned audio = audio.
Proof. intros H. by rewrite <- delete_removed_keys, H. Qed.

Lemma removed_keys_nil (audio : gmap string Frame) :
  removed_keys audio = [] ↔
  ∀ key value, audio !! key = Some value → removable (key, value) = false.
Proof.
  split.
  - intros H key value Hv. destruct (removable (key, value)) eqn:R; [|done].
    assert (Hin : key ∈ removed_keys audio) by (apply elem_of_removed_keys; eauto).
    rewrite H in Hin. by apply elem_of_nil in Hin.
  - intros H. destruct (removed_keys audio) as [|k ks] eqn:E; [done|].
    assert (Hin : k ∈ removed_keys audio) by (rewrite E; left).
    apply elem_of_removed_keys in Hin as (v & Hv & R).
    rewrite (H _ _ Hv) in R. done.
Qed.

Lemma removed_keys_cleaned (audio : gmap string Frame) :
  removed_keys (cleaned audio) = [].
Proof.
  apply removed_keys_nil. intros key value. rewrite lookup_cleaned.
  destruct (audio !! key) as [v|]; [|done].
  destruct (removable (key, v)) eqn:R; [done|]. congruence.
Qed.

(** What the file holds after a run, when it could be loaded. *)
Lemma fix_comment_fields_tags filepath dry_run w audio :
  disk w !! filepath = Some (Tagged audio) →
  disk (fix_comment_fields filepath dry_run w).1 !! filepath =
  Some (Tagged (if dry_run then audio else cleaned audio)).
Proof.
  intros H. fix_cases filepath dry_run w audio' Hload Hrm; simpl;
    rewrite ?lookup_insert_eq; simplify_eq; try done.
  - rewrite (cleaned_id _ Hrm). by destruct dry_run.
  - by destruct (Hload audio).
Qed.

(** The other files are never touched. *)
Lemma fix_comment_fields_other filepath dry_run w q :
  q ≠ filepath →
  disk (fix_comment_fields filepath dry_run w).1 !! q = disk w !! q.
Proof.
  intros H. fix_cases filepath dry_run w audio' Hload Hrm; simpl; try done.
  by rewrite lookup_insert_ne.
Qed.

(** A file that cannot be loaded stays as it is. *)
Lemma fix_comment_fields_dry_disk filepath w :
  disk (fix_comment_fields filepath true w).1 = disk w.
Proof.
  destruct (load_cases w filepath) as [[audio Hload]|Hload].
  - destruct (decide (removed_keys audio = [])) as [Hrm|Hrm].
    + by rewrite (fix_comment_fields_clean filepath true w audio Hload Hrm).
    + by rewrite (fix_comment_fields_dry filepath w audio Hload Hrm).
  - by rewrite (fix_comment_fields_unloadable filepath true w Hload).
Qed.

(** * The decision table *)

Lemma spec_class_Preserve d l :
  spec_class d l = Preserve ↔ String.eqb d "Songs-DB_Custom1" = true.
Proof.
  unfold spec_class. rewrite String.eqb_eq.
  repeat case_decide; split; intros; try done.
Qed.

Lemma removable_spec_class key value :
  removable (key, value) = true ↔
  String.prefix "COMM" key = true ∧ spec_class (desc_of value) (lang_of value) = Remove.
Proof.
  unfold removable, is_comm, spec_class; simpl.
  rewrite !andb_true_iff, orb_true_iff, !andb_true_iff, negb_true_iff, !String.eqb_eq,
    String.eqb_neq.
  repeat case_decide; naive_solver.
Qed.

Lemma verdict_classify_msg kv :
  omap verdict (classify_msg kv) =
  if is_comm kv then [(kv.1, spec_class (desc_of kv.2) (lang_of kv.2))] else [].
Proof.
  unfold classify_msg, spec_class. destruct (is_comm kv); [|done].
  destruct (String.eqb_spec (desc_of kv.2) "Songs-DB_Custom1") as [->|Hc]; [done|].
  rewrite decide_False by done.
  destruct (String.eqb_spec (desc_of kv.2) "ID3v1 Comment") as [Hd|Hd],
           (String.eqb_spec (lang_of kv.2) "eng") as [Hl|Hl]; simpl;
    [rewrite decide_True by done; done|rewrite decide_False by naive_solver..].
  all: destruct (String.eqb_spec (desc_of kv.2) "") as [Hd'|Hd'],
           (String.eqb_spec (lang_of kv.2) "XXX") as [Hl'|Hl']; simpl;
    [rewrite decide_True by done; done|rewrite decide_False by naive_solver; done..].
Qed.

Lemma elem_of_verdicts (audio : gmap string Frame) key c :
  (key, c) ∈ omap verdict (classify_msgs audio) ↔
  ∃ value, audio !! key = Some value ∧ String.prefix "COMM" key = true
           ∧ c = spec_class (desc_of value) (lang_of value).
Proof.
  unfold classify_msgs. setoid_rewrite <- elem_of_map_to_list.
  induction (map_to_list audio) as [|kv l IH]; simpl.
  - split; [by intros ?%elem_of_nil|]. by intros (? & ?%elem_of_nil & _).
  - rewrite omap_app, elem_of_app, IH, verdict_classify_msg. split.
    + intros [H|(v & Hv & Hp & Hc)].
      * destruct (is_comm kv) eqn:E; [|by apply elem_of_nil in H].
        apply list_elem_of_singleton in H. destruct kv as [k v]. simplify_eq/=.
        exists v. split; [left|done].
      * exists v. split; [by right|done].
    + intros (v & [Hv|Hv]%elem_of_cons & Hp & Hc).
      * left. subst kv. unfold is_comm; simpl. rewrite Hp, Hc. by left.
      * right. eauto.
Qed.

(** C1. For every COMM frame of the tag set, the classification loop of
    [fix_comment_fields] announces exactly the class of the specification's
    decision table (preserve for description "Songs-DB_Custom1", else remove
    for "ID3v1 Comment"/"eng", else remove for ""/"XXX", else
    preserve-other), collects the frame for removal exactly when that class
    is remove, and a run leaves every frame of another class in the file as
    it was while an applying run deletes the frames of class remove. *)
Theorem classify_frame_decision_table (audio : gmap string Frame) w key value :
  audio !! key = Some value →
  String.prefix "COMM" key = true →
  ∃ w' st out,
    for_acc (map_to_list audio) classify_frame (mkScan [] None) w = (w', inr st)
    ∧ stdout w' = stdout w ++ out
    ∧ (∀ c, (key, c) ∈ omap verdict out ↔ c = spec_class (desc_of value) (lang_of value))
    ∧ (key ∈ to_remove st ↔ spec_class (desc_of value) (lang_of value) = Remove)
    ∧ ∀ filepath dry_run w0,
        disk w0 !! filepath = Some (Tagged audio) →
        ∃ audio', tags_at (fix_comment_fields filepath dry_run w0).1 filepath = Some audio'
          ∧ (spec_class (desc_of value) (lang_of value) ≠ Remove → audio' !! key = Some value)
          ∧ (spec_class (desc_of value) (lang_of value) = Remove →
             audio' !! key = if dry_run then Some value else None).
Proof.
  intros Hv Hp. rewrite for_classify_frame. eexists _, _, _.
  split; [done|]. split; [done|]. simpl. fold (removed_keys audio).
  split; [|split].
  - intros c. fold (classify_msgs audio). rewrite elem_of_verdicts. split.
    + intros (v & Hv' & _ & ->). congruence.
    + intros ->. eauto.
  - rewrite elem_of_removed_keys. split.
    + intros (v & Hv' & R). simplify_eq. by apply removable_spec_class in R as [_ R].
    + intros R. exists value. split; [done|]. by apply removable_spec_class.
  - intros filepath dry_run w0 Hload. unfold tags_at.
    rewrite (fix_comment_fields_tags _ _ _ _ Hload).
    eexists. split; [done|].
    destruct dry_run; [by rewrite Hv|]. rewrite lookup_cleaned, Hv. split.
    + intros Hc. destruct (removable (key, value)) eqn:R; [|done].
      by apply removable_spec_class in R as [_ R].
    + intros Hc. assert (R : removable (key, value) = true)
        by by apply removable_spec_class.
      by rewrite R.
Qed.

Lemma classify_frame_decision_table_witness :
  ∃ w' st out,
    for_acc (map_to_list scenario_tags) classify_frame (mkScan [] None) scenario_world
      = (w', inr st)
    ∧ stdout w' = stdout scenario_world ++ out
    ∧ (∀ c, ("COMM::eng", c) ∈ omap verdict out ↔
            c = spec_class (desc_of (comm "" "eng" "dup")) (lang_of (comm "" "eng" "dup")))
    ∧ ("COMM::eng" ∈ to_remove st ↔
       spec_class (desc_of (comm "" "eng" "dup")) (lang_of (comm "" "eng" "dup")) = Remove)
    ∧ ∀ filepath dry_run w0,
        disk w0 !! filepath = Some (Tagged scenario_tags) →
        ∃ audio', tags_at (fix_comment_fields filepath dry_run w0).1 filepath = Some audio'
          ∧ (spec_class (desc_of (comm "" "eng" "dup")) (lang_of (comm "" "eng" "dup"))
               ≠ Remove → audio' !! "COMM::eng" = Some (comm "" "eng" "dup"))
          ∧ (spec_class (desc_of (comm "" "eng" "dup")) (lang_of (comm "" "eng" "dup"))
               = Remove →
             audio' !! "COMM::eng" = if dry_run then Some (comm "" "eng" "dup") else None).
Proof.
  apply (classify_frame_decision_table scenario_tags scenario_world "COMM::eng"
           (comm "" "eng" "dup")); reflexivity.
Defined.

(** * The frames a run keeps *)

Lemma removable_custom1 key value :
  desc value = Some "Songs-DB_Custom1" → removable (key, value) = false.
Proof.
  intros H. unfold removable, desc_of; simpl. rewrite H; simpl.
  by rewrite andb_false_r.
Qed.

Lemma removable_not_comm key value :
  String.prefix "COMM" key = false → removable (key, value) = false.
Proof. intros H. unfold removable, is_comm; simpl. by rewrite H. Qed.

(** The calls a run adds never delete a frame that is not removable. *)
Lemma fix_comment_fields_calls filepath dry_run w :
  ∃ cs, calls (fix_comment_fields filepath dry_run w).1 = calls w ++ cs
    ∧ (dry_run = true → cs = [CLoad filepath])
    ∧ ∀ key, CDel key ∈ cs →
        dry_run = false
        ∧ ∃ audio value, disk w !! filepath = Some (Tagged audio)
            ∧ audio !! key = Some value ∧ removable (key, value) = true.
Proof.
  fix_cases filepath dry_run w audio Hload Hrm; simpl; eexists; (split; [done|]).
  1,2,4: split; [done|]; intros key Hin; apply list_elem_of_singleton in Hin; done.
  - split; [done|]. intros key Hin. split; [done|].
    apply elem_of_cons in Hin as [?|Hin]; [done|].
    apply elem_of_app in Hin as [Hin|Hin].
    + apply list_elem_of_fmap in Hin as (k & ? & Hin). simplify_eq.
      apply elem_of_removed_keys in Hin as (v & ? & ?). eauto.
    + apply elem_of_cons in Hin as [?|Hin]; [done|].
      apply list_elem_of_singleton in Hin. done.
Qed.

(** C2. Whatever else the tag set holds, and in dry-run and apply mode
    alike, a frame whose description is "Songs-DB_Custom1" (its language may
    be "XXX" or anything else) is never deleted and is in the tag set of the
    file, unchanged, after the run. *)
Theorem custom1_frame_kept filepath dry_run w (audio : gmap string Frame) key value :
  disk w !! filepath = Some (Tagged audio) →
  audio !! key = Some value →
  desc value = Some "Songs-DB_Custom1" →
  ∃ audio' cs,
    tags_at (fix_comment_fields filepath dry_run w).1 filepath = Some audio'
    ∧ audio' !! key = Some value
    ∧ calls (fix_comment_fields filepath dry_run w).1 = calls w ++ cs
    ∧ CDel key ∉ cs.
Proof.
  intros Hload Hv Hd.
  destruct (fix_comment_fields_calls filepath dry_run w) as (cs & Hcs & _ & Hdel).
  exists (if dry_run then audio else cleaned audio), cs.
  unfold tags_at. rewrite (fix_comment_fields_tags _ _ _ _ Hload).
  split; [done|]. split; [|split; [done|]].
  - destruct dry_run; [done|].
    by rewrite lookup_cleaned, Hv, (removable_custom1 _ _ Hd).
  - intros (_ & a & v & Ha & Hv' & R)%Hdel. simplify_eq.
    by rewrite (removable_custom1 _ _ Hd) in R.
Qed.

Lemma custom1_frame_kept_witness :
  ∃ audio' cs,
    tags_at (fix_comment_fields "song.mp3" false scenario_world).1 "song.mp3" = Some audio'
    ∧ audio' !! "COMM:Songs-DB_Custom1:XXX" = Some (comm "Songs-DB_Custom1" "XXX" "keep me")
    ∧ calls (fix_comment_fields "song.mp3" false scenario_world).1
      = calls scenario_world ++ cs
    ∧ CDel "COMM:Songs-DB_Custom1:XXX" ∉ cs.
Proof.
  apply (custom1_frame_kept "song.mp3" false scenario_world scenario_tags
           "COMM:Songs-DB_Custom1:XXX" (comm "Songs-DB_Custom1" "XXX" "keep me"));
    reflexivity.
Defined.

(** C9. A frame whose key does not start with "COMM" (TXXX, TIT2, ...) is
    never deleted and is in the tag set of the file, unchanged, after the
    run, in dry-run and apply mode alike. *)
Theorem non_comm_frame_kept filepath dry_run w (audio : gmap string Frame) key value :
  disk w !! filepath = Some (Tagged audio) →
  audio !! key = Some value →
  String.prefix "COMM" key = false →
  ∃ audio' cs,
    tags_at (fix_comment_fields filepath dry_run w).1 filepath = Some audio'
    ∧ audio' !! key = Some value
    ∧ calls (fix_comment_fields filepath dry_run w).1 = calls w ++ cs
    ∧ CDel key ∉ cs.
Proof.
  intros Hload Hv Hp.
  destruct (fix_comment_fields_calls filepath dry_run w) as (cs & Hcs & _ & Hdel).
  exists (if dry_run then audio else cleaned audio), cs.
  unfold tags_at. rewrite (fix_comment_fields_tags _ _ _ _ Hload).
  split; [done|]. split; [|split; [done|]].
  - destruct dry_run; [done|].
    by rewrite lookup_cleaned, Hv, (removable_not_comm _ _ Hp).
  - intros (_ & a & v & Ha & Hv' & R)%Hdel. simplify_eq.
    by rewrite (removable_not_comm _ _ Hp) in R.
Qed.

Lemma non_comm_frame_kept_witness :
  ∃ audio' cs,
    tags_at (fix_comment_fields "song.mp3" false titled_world).1 "song.mp3" = Some audio'
    ∧ audio' !! "TIT2" = Some (title "Song")
    ∧ calls (fix_comment_fields "song.mp3" false titled_world).1
      = calls titled_world ++ cs
    ∧ CDel "TIT2" ∉ cs.
Proof.
  apply (non_comm_frame_kept "song.mp3" false titled_world titled_tags "TIT2" (title "Song"));
    reflexivity.
Defined.

(** * Dry runs, clean files and repeated runs *)

(** C3. A dry run changes nothing: the files are what they were, the only
    call into the tag library is the load (no deletion, no save), and when
    frames would be removed the run ends by reporting how many. *)
Theorem dry_run_pure filepath w :
  disk (fix_comment_fields filepath true w).1 = disk w
  ∧ calls (fix_comment_fields filepath true w).1 = calls w ++ [CLoad filepath]
  ∧ (fix_comment_fields filepath true w).2 = inr tt
  ∧ ∀ audio, disk w !! filepath = Some (Tagged audio) →
      removed_keys audio ≠ [] →
      stdout (fix_comment_fields filepath true w).1
      = stdout w ++ report filepath audio ++ [MDryRun (length (removed_keys audio))].
Proof.
  split; [apply fix_comment_fields_dry_disk|].
  split; [|split; [apply fix_comment_fields_returns|]].
  - destruct (fix_comment_fields_calls filepath true w) as (cs & -> & -> & _); done.
  - intros audio Hload Hrm. by rewrite (fix_comment_fields_dry _ _ _ Hload Hrm).
Qed.

Lemma dry_run_pure_witness :
  disk (fix_comment_fields "song.mp3" true scenario_world).1 = disk scenario_world
  ∧ stdout (fix_comment_fields "song.mp3" true scenario_world).1
    = stdout scenario_world ++ report "song.mp3" scenario_tags
        ++ [MDryRun (length (removed_keys scenario_tags))].
Proof.
  destruct (dry_run_pure "song.mp3" scenario_world) as (Hdisk & _ & _ & Hout).
  split; [exact Hdisk|].
  apply Hout; [reflexivity|]. vm_compute. discriminate.
Defined.

Lemma removable_rule key value :
  removable (key, value) = true ↔
  String.prefix "COMM" key = true ∧ matches_removal_rule value.
Proof.
  rewrite removable_spec_class. unfold spec_class, matches_removal_rule.
  repeat case_decide; intuition congruence.
Qed.

(** C5. When no COMM frame of the tag set matches a removal rule (as when
    the tag set has no COMM frame at all), a run in either mode attempts no
    deletion and no save, leaves the files as they are, and ends by
    reporting that no problematic field was found. *)
Theorem no_removable_frame_noop filepath dry_run w (audio : gmap string Frame) :
  disk w !! filepath = Some (Tagged audio) →
  (∀ key value, audio !! key = Some value → String.prefix "COMM" key = true →
                ¬ matches_removal_rule value) →
  fix_comment_fields filepath dry_run w =
  (mkWorld (disk w) (glob w)
     (stdout w ++ report filepath audio ++ [MNoProblem])
     (stderr w)
     (calls w ++ [CLoad filepath]),
   inr tt).
Proof.
  intros Hload Hno. apply fix_comment_fields_clean; [done|].
  apply removed_keys_nil. intros key value Hv.
  destruct (removable (key, value)) eqn:R; [|done].
  apply removable_rule in R as [Hp Hm]. by destruct (Hno key value).
Qed.

Lemma no_comm_frame_no_rule (audio : gmap string Frame) :
  (∀ key value, audio !! key = Some value → String.prefix "COMM" key = false) →
  ∀ key value, audio !! key = Some value → String.prefix "COMM" key = true →
               ¬ matches_removal_rule value.
Proof. intros H key value Hv Hp. rewrite (H _ _ Hv) in Hp. done. Qed.

Lemma no_removable_frame_noop_witness :
  fix_comment_fields "song.mp3" false tidy_world =
  (mkWorld (disk tidy_world) (glob tidy_world)
     (stdout tidy_world ++ report "song.mp3" tidy_tags ++ [MNoProblem])
     (stderr tidy_world)
     (calls tidy_world ++ [CLoad "song.mp3"]),
   inr tt).
Proof.
  apply (no_removable_frame_noop "song.mp3" false tidy_world tidy_tags); [reflexivity|].
  intros key value Hv Hp [[Hd Hl]|[Hd Hl]]; unfold tidy_tags, plain_tags in Hv;
    repeat (apply lookup_insert_Some in Hv as [[<- <-]|[_ Hv]]; [discriminate|]);
    apply lookup_singleton_Some in Hv as [<- <-]; discriminate.
Defined.

(** C4. Applying the cleanup a second time changes nothing more: the files
    are what the first run left, and when the file loads the second run's
    classification loop collects no key, so it makes no deletion and no
    save and reports that no problematic field was found. *)
Theorem apply_idempotent filepath w :
  let w1 := (fix_comment_fields filepath false w).1 in
  let w2 := (fix_comment_fields filepath false w1).1 in
  disk w2 = disk w1
  ∧ ∀ audio1, tags_at w1 filepath = Some audio1 →
      (∀ w0, ∃ w' st,
         for_acc (map_to_list audio1) classify_frame (mkScan [] None) w0 = (w', inr st)
         ∧ to_remove st = [])
      ∧ tags_at w2 filepath = Some audio1
      ∧ stdout w2 = stdout w1 ++ report filepath audio1 ++ [MNoProblem]
      ∧ calls w2 = calls w1 ++ [CLoad filepath].
Proof.
  intros w1 w2.
  assert (Hclean : ∀ audio1, tags_at w1 filepath = Some audio1 →
            disk w1 !! filepath = Some (Tagged audio1) ∧ removed_keys audio1 = []).
  { intros audio1 H1. unfold tags_at in H1.
    destruct (disk w1 !! filepath) as [[a|]|] eqn:E1; simplify_eq. split; [done|].
    destruct (load_cases w filepath) as [[audio Hload]|Hload].
    - subst w1. rewrite (fix_comment_fields_tags _ _ _ _ Hload) in E1. simplify_eq.
      apply removed_keys_cleaned.
    - subst w1. rewrite (fix_comment_fields_unloadable _ _ _ Hload) in E1. simpl in E1.
      by destruct (Hload audio1). }
  split.
  - destruct (load_cases w1 filepath) as [[audio1 Hload1]|Hload1].
    + destruct (Hclean audio1) as [_ Hrm]; [unfold tags_at; by rewrite Hload1|].
      subst w2. by rewrite (fix_comment_fields_clean _ _ _ _ Hload1 Hrm).
    + subst w2. by rewrite (fix_comment_fields_unloadable _ _ _ Hload1).
  - intros audio1 [Hload1 Hrm]%Hclean. split; [|split; [|split]].
    + intros w0. rewrite for_classify_frame. eexists _, _. split; [done|]. simpl.
      exact Hrm.
    + subst w2. unfold tags_at.
      by rewrite (fix_comment_fields_tags _ _ _ _ Hload1), (cleaned_id _ Hrm).
    + subst w2. by rewrite (fix_comment_fields_clean _ _ _ _ Hload1 Hrm).
    + subst w2. by rewrite (fix_comment_fields_clean _ _ _ _ Hload1 Hrm).
Qed.

Lemma apply_idempotent_witness :
  let w1 := (fix_comment_fields "song.mp3" false scenario_world).1 in
  let w2 := (fix_comment_fields "song.mp3" false w1).1 in
  disk w2 = disk w1
  ∧ tags_at w2 "song.mp3" = Some (cleaned scenario_tags)
  ∧ calls w2 = calls w1 ++ [CLoad "song.mp3"].
Proof.
  intros w1 w2.
  destruct (apply_idempotent "song.mp3" scenario_world) as [Hdisk Hsecond].
  split; [exact Hdisk|].
  destruct (Hsecond (cleaned scenario_tags)) as (_ & Htags & _ & Hcalls);
    [vm_compute; reflexivity|].
  split; assumption.
Defined.

(** * The scenario of the specification *)

(** The scenario as the specification states it fails: after an applying
    run the file does not hold the "Songs-DB_Custom1" frame alone, the
    frame "COMM::eng" is still there. *)
Lemma scenario_apply_keeps_comm_eng :
  tags_at (fix_comment_fields "song.mp3" false scenario_world).1 "song.mp3"
  ≠ Some {["COMM:Songs-DB_Custom1:XXX" := comm "Songs-DB_Custom1" "XXX" "keep me"]}
  ∧ from_option (λ audio' : gmap string Frame, audio' !! "COMM::eng") None
      (tags_at (fix_comment_fields "song.mp3" false scenario_world).1 "song.mp3")
    = Some (comm "" "eng" "dup").
Proof.
  assert (Hkept : from_option (λ audio' : gmap string Frame, audio' !! "COMM::eng") None
            (tags_at (fix_comment_fields "song.mp3" false scenario_world).1 "song.mp3")
          = Some (comm "" "eng" "dup")) by (vm_compute; reflexivity).
  split; [|exact Hkept].
  intros H. rewrite H in Hkept. vm_compute in Hkept. discriminate Hkept.
Qed.

(** C7, amended. For the tag set {COMM::eng="dup", COMM:ID3v1 Comment:eng=
    "legacy", COMM:Songs-DB_Custom1:XXX="keep me"}, an applying run deletes
    the frame "COMM:ID3v1 Comment:eng" only and leaves "COMM::eng" and
    "COMM:Songs-DB_Custom1:XXX" in the file, unchanged. *)
Theorem scenario_apply :
  tags_at (fix_comment_fields "song.mp3" false scenario_world).1 "song.mp3"
  = Some (<["COMM::eng" := comm "" "eng" "dup"]>
          {["COMM:Songs-DB_Custom1:XXX" := comm "Songs-DB_Custom1" "XXX" "keep me"]})
  ∧ calls (fix_comment_fields "song.mp3" false scenario_world).1
    = [CLoad "song.mp3"; CDel "COMM:ID3v1 Comment:eng"; CSave "song.mp3"; CLoad "song.mp3"].
Proof. split; vm_compute; reflexivity. Qed.

(** * The batch *)

Lemma has_problem_foldl l c :
  has_problem (foldl check_frame c l) = has_problem c || existsb removable l.
Proof.
  revert c. induction l as [|[key value] l IH]; intros c; simpl.
  - by rewrite orb_false_r.
  - rewrite IH. unfold check_frame, removable, is_comm, desc_of, lang_of; simpl.
    destruct (String.prefix "COMM" key); simpl; [|done].
    destruct (String.eqb (default "" (desc value)) "Songs-DB_Custom1"); simpl; [done|].
    destruct (String.eqb (default "" (desc value)) "ID3v1 Comment"
              && String.eqb (default "" (lang value)) "eng"
              || String.eqb (default "" (desc value)) ""
                 && String.eqb (default "" (lang value)) "XXX"); simpl; [|done].
    by rewrite orb_true_r.
Qed.

Lemma existsb_removable (audio : gmap string Frame) :
  existsb removable (map_to_list audio) = true ↔ removed_keys audio ≠ [].
Proof.
  unfold removed_keys. induction (map_to_list audio) as [|kv l IH]; simpl; [done|].
  rewrite filter_cons, orb_true_iff, IH.
  destruct (removable kv); simpl; [|intuition congruence].
  split; [done|]. by left.
Qed.


Lemma banners_app l1 l2 : banners (l1 ++ l2) = banners l1 ++ banners l2.
Proof. apply omap_app. Qed.

Lemma banners_flat_map {A} (f : A → list Msg) l :
  (∀ x, banners (f x) = []) → banners (flat_map f l) = [].
Proof.
  intros H. induction l as [|x l IH]; simpl; [done|].
  by rewrite banners_app, H, IH.
Qed.

Lemma banners_report filepath audio : banners (report filepath audio) = [filepath].
Proof.
  unfold report. rewrite !banners_app. simpl.
  unfold before_msgs, classify_msgs. rewrite !banners_flat_map; [done|..].
  - intros x. unfold classify_msg. by repeat case_match.
  - intros x. unfold before_msg. by repeat case_match.
Qed.

Lemma banners_after_msgs audio : banners (after_msgs audio) = [].
Proof.
  apply banners_flat_map. intros x. unfold after_msg. by repeat case_match.
Qed.

(** What a run of [fix_comment_fields] prints starts one banner. *)
Lemma fix_comment_fields_stdout filepath dry_run w :
  ∃ out, stdout (fix_comment_fields filepath dry_run w).1 = stdout w ++ out
         ∧ banners out = [filepath].
Proof.
  fix_cases filepath dry_run w audio Hload Hrm; cbn [fst stdout]; eexists;
    (split; [done|]);
    rewrite ?banners_app, ?banners_report, ?banners_after_msgs; reflexivity.
Qed.

(** ** One file of the batch *)

Lemma batch_file_run dry_run filepath n w :
  batch_file dry_run filepath n w =
  if needs_fix (disk w) filepath then
    ((fix_comment_fields filepath dry_run
        (emit (MBatchFile filepath) (log_call (CLoad filepath) w))).1,
     inr (S n))
  else (log_call (CLoad filepath) w, inr n).
Proof.
  unfold batch_file, try_bare, mbind, M_bind, ID3, needs_fix.
  destruct (disk w !! filepath) as [[audio|]|]; try done.
  rewrite has_problem_foldl; simpl.
  destruct (existsb removable (map_to_list audio)); [|done].
  pose proof (fix_comment_fields_returns filepath dry_run
                (emit (MBatchFile filepath) (log_call (CLoad filepath) w))) as Hr.
  destruct (fix_comment_fields _ _ _) as [w' r]; simpl in *. by rewrite Hr.
Qed.

Lemma needs_fix_loads (d : gmap string File) filepath :
  needs_fix d filepath = true → ∃ audio, d !! filepath = Some (Tagged audio).
Proof. unfold needs_fix. destruct (d !! filepath) as [[audio|]|]; eauto; done. Qed.

Lemma batch_file_step dry_run filepath n w :
  ∃ w' out cs,
    batch_file dry_run filepath n w = (w', inr (n + length (banners out)))
    ∧ stdout w' = stdout w ++ out
    ∧ calls w' = calls w ++ CLoad filepath :: cs
    ∧ glob w' = glob w
    ∧ stderr w' = stderr w
    ∧ banners out = (if needs_fix (disk w) filepath then [filepath] else [])
    ∧ (∀ q, q ≠ filepath → disk w' !! q = disk w !! q)
    ∧ (tags_at w filepath = None → disk w' = disk w ∧ out = []).
Proof.
  rewrite batch_file_run. destruct (needs_fix (disk w) filepath) eqn:E.
  - set (w0 := emit (MBatchFile filepath) (log_call (CLoad filepath) w)).
    destruct (fix_comment_fields_stdout filepath dry_run w0) as (out & Hout & Hb).
    destruct (fix_comment_fields_calls filepath dry_run w0) as (cs & Hcs & _).
    apply needs_fix_loads in E as [audio Hload].
    exists (fix_comment_fields filepath dry_run w0).1, (MBatchFile filepath :: out), cs.
    simpl. rewrite Hb. split; [by rewrite Nat.add_1_r|].
    split; [by rewrite Hout; simpl; rewrite <- app_assoc|].
    split; [by rewrite Hcs; simpl; rewrite <- app_assoc|].
    split; [by rewrite fix_comment_fields_glob|].
    split.
    { assert (Hl : disk w0 !! filepath = Some (Tagged audio)) by done.
      subst w0. clear Hout Hcs.
      fix_cases filepath dry_run
        (emit (MBatchFile filepath) (log_call (CLoad filepath) w)) a Hl' Hrm; try done.
      by destruct (Hl' audio). }
    split; [done|]. split.
    + intros q Hq. by rewrite fix_comment_fields_other.
    + unfold tags_at. by rewrite Hload.
  - exists (log_call (CLoad filepath) w), [], []. simpl.
    rewrite Nat.add_0_r, app_nil_r. done.
Qed.

Lemma needs_fix_ext (d d' : gmap string File) filepath :
  d' !! filepath = d !! filepath → needs_fix d' filepath = needs_fix d filepath.
Proof. unfold needs_fix. by intros ->. Qed.

Lemma filter_needs_fix_ext (d d' : gmap string File) (files : list string) :
  (∀ q, q ∈ files → d' !! q = d !! q) →
  filter (λ p, needs_fix d' p = true) files = filter (λ p, needs_fix d p = true) files.
Proof.
  induction files as [|p files IH]; intros H; [done|].
  rewrite !filter_cons, (needs_fix_ext d d' p), IH; [done| |].
  - intros q Hq. apply H. by right.
  - apply H. by left.
Qed.

(** ** The loop over the files *)

Lemma batch_loop dry_run files : ∀ n w,
  ∃ w' out cs,
    for_acc files (batch_file dry_run) n w = (w', inr (n + length (banners out)))
    ∧ stdout w' = stdout w ++ out
    ∧ calls w' = calls w ++ cs
    ∧ stderr w' = stderr w
    ∧ (∀ p, p ∈ files → CLoad p ∈ cs)
    ∧ (∀ q, tags_at w q = None → disk w' !! q = disk w !! q ∧ q ∉ banners out)
    ∧ (NoDup files → banners out = filter (λ p, needs_fix (disk w) p = true) files).
Proof.
  induction files as [|p files IH]; intros n w; simpl.
  - exists w, [], []. rewrite !app_nil_r, Nat.add_0_r.
    repeat split; try done.
    + by intros ? ?%elem_of_nil.
    + by intros ?%elem_of_nil.
  - destruct (batch_file_step dry_run p n w)
      as (w1 & out1 & cs1 & Hrun1 & Hout1 & Hcs1 & _ & Herr1 & Hb1 & Hother1 & Hskip1).
    destruct (IH (n + length (banners out1)) w1)
      as (w' & out & cs & Hrun & Hout & Hcs & Herr & Hloads & Hskip & Hb).
    exists w', (out1 ++ out), (CLoad p :: cs1 ++ cs).
    unfold mbind, M_bind. rewrite Hrun1, Hrun, banners_app, length_app, Nat.add_assoc.
    split; [done|]. split; [by rewrite Hout, Hout1, <- app_assoc|].
    split; [by rewrite Hcs, Hcs1, <- app_assoc|].
    split; [congruence|]. split; [|split].
    + intros q [->|Hq]%elem_of_cons; [by left|].
      right. apply elem_of_app. right. by apply Hloads.
    + intros q Hq.
      assert (Hq1 : disk w1 !! q = disk w !! q ∧ q ∉ banners out1).
      { destruct (decide (q = p)) as [->|Hne].
        - destruct (Hskip1 Hq) as [-> ->]. split; [done|]. by intros ?%elem_of_nil.
        - split; [by apply Hother1|]. rewrite Hb1.
          destruct (needs_fix (disk w) p); [|by intros ?%elem_of_nil].
          by intros ?%list_elem_of_singleton. }
      destruct Hq1 as [Hd1 Hnb1].
      destruct (Hskip q) as [Hd Hnb]; [unfold tags_at in *; by rewrite Hd1|].
      split; [congruence|]. by intros [?|?]%elem_of_app.
    + intros [Hp Hnd]%NoDup_cons. rewrite (Hb Hnd), Hb1, filter_cons.
      rewrite (filter_needs_fix_ext (disk w) (disk w1)).
      * by destruct (needs_fix (disk w) p).
      * intros q Hq. apply Hother1. by intros ->.
Qed.

(** ** [batch_fix], run *)

Lemma batch_fix_run directory dry_run w :
  ∃ w' out cs,
    batch_fix directory dry_run w = (w', inr tt)
    ∧ stdout w' = stdout w ++ [MFound (length (glob w directory)) directory] ++ out
                    ++ [MSummary (length (banners out))]
    ∧ calls w' = calls w ++ cs
    ∧ stderr w' = stderr w
    ∧ (∀ p, p ∈ glob w directory → CLoad p ∈ cs)
    ∧ (∀ q, tags_at w q = None → disk w' !! q = disk w !! q ∧ q ∉ banners out)
    ∧ (NoDup (glob w directory) →
       banners out = filter (λ p, needs_fix (disk w) p = true) (glob w directory)).
Proof.
  unfold batch_fix, mbind, M_bind, print at 1.
  destruct (batch_loop dry_run (glob w directory) 0
              (emit (MFound (length (glob w directory)) directory) w))
    as (w' & out & cs & Hrun & Hout & Hcs & Herr & Hloads & Hskip & Hb).
  rewrite Hrun. exists (emit (MSummary (length (banners out))) w'), out, cs.
  split; [done|]. simpl. rewrite Hout. simpl.
  split; [by rewrite <- !app_assoc|]. done.
Qed.

(** ** Leaving the unloadable files out *)

(** What a run prints and leaves on disk depends on the files only, not on
    what was printed or called before. *)
Lemma fix_comment_fields_same filepath dry_run w1 w2 :
  disk w1 = disk w2 →
  ∃ out err,
    disk (fix_comment_fields filepath dry_run w1).1
    = disk (fix_comment_fields filepath dry_run w2).1
    ∧ stdout (fix_comment_fields filepath dry_run w1).1 = stdout w1 ++ out
    ∧ stdout (fix_comment_fields filepath dry_run w2).1 = stdout w2 ++ out
    ∧ stderr (fix_comment_fields filepath dry_run w1).1 = stderr w1 ++ err
    ∧ stderr (fix_comment_fields filepath dry_run w2).1 = stderr w2 ++ err.
Proof.
  intros Hd. destruct (load_cases w1 filepath) as [[audio Hload1]|Hload1].
  - assert (Hload2 : disk w2 !! filepath = Some (Tagged audio)) by by rewrite <- Hd.
    destruct (decide (removed_keys audio = [])) as [Hrm|Hrm].
    + rewrite (fix_comment_fields_clean _ dry_run _ _ Hload1 Hrm),
        (fix_comment_fields_clean _ dry_run _ _ Hload2 Hrm). simpl.
      eexists _, []. split; [done|]. split; [reflexivity|]. split; [reflexivity|]. by rewrite !app_nil_r.
    + destruct dry_run.
      * rewrite (fix_comment_fields_dry _ _ _ Hload1 Hrm),
          (fix_comment_fields_dry _ _ _ Hload2 Hrm). simpl.
        eexists _, []. split; [done|]. split; [reflexivity|]. split; [reflexivity|]. by rewrite !app_nil_r.
      * rewrite (fix_comment_fields_apply _ _ _ Hload1 Hrm),
          (fix_comment_fields_apply _ _ _ Hload2 Hrm). simpl.
        eexists _, []. split; [by rewrite Hd|]. split; [reflexivity|]. split; [reflexivity|]. by rewrite !app_nil_r.
  - assert (Hload2 : ∀ tags, disk w2 !! filepath ≠ Some (Tagged tags))
      by (intros tags; rewrite <- Hd; apply Hload1).
    rewrite (fix_comment_fields_unloadable _ dry_run _ Hload1),
      (fix_comment_fields_unloadable _ dry_run _ Hload2). simpl.
    eexists _, _. split; [done|]. split; [reflexivity|]. split; [reflexivity|]. split; reflexivity.
Qed.

Lemma batch_file_same dry_run filepath n w1 w2 :
  disk w1 = disk w2 →
  ∃ out err,
    (batch_file dry_run filepath n w1).2 = (batch_file dry_run filepath n w2).2
    ∧ disk (batch_file dry_run filepath n w1).1 = disk (batch_file dry_run filepath n w2).1
    ∧ stdout (batch_file dry_run filepath n w1).1 = stdout w1 ++ out
    ∧ stdout (batch_file dry_run filepath n w2).1 = stdout w2 ++ out
    ∧ stderr (batch_file dry_run filepath n w1).1 = stderr w1 ++ err
    ∧ stderr (batch_file dry_run filepath n w2).1 = stderr w2 ++ err.
Proof.
  intros Hd. rewrite !batch_file_run, <- Hd.
  destruct (needs_fix (disk w1) filepath); simpl.
  - destruct (fix_comment_fields_same filepath dry_run
                (emit (MBatchFile filepath) (log_call (CLoad filepath) w1))
                (emit (MBatchFile filepath) (log_call (CLoad filepath) w2)))
      as (out & err & Hdisk & Hout1 & Hout2 & Herr1 & Herr2); [done|].
    exists (MBatchFile filepath :: out), err. simpl in *.
    rewrite Hout1, Hout2, <- !app_assoc. done.
  - exists [], []. by rewrite !app_nil_r.
Qed.

(** An unloadable file is passed over: the load is attempted, the
    exception is caught, and nothing else changes. *)
Lemma batch_file_unloadable dry_run filepath n w :
  tags_at w filepath = None →
  batch_file dry_run filepath n w = (log_call (CLoad filepath) w, inr n).
Proof.
  intros H. rewrite batch_file_run.
  destruct (needs_fix (disk w) filepath) eqn:E; [|done].
  apply needs_fix_loads in E as [audio Hload]. unfold tags_at in H. by rewrite Hload in H.
Qed.

Lemma loadable_tags_at w filepath :
  loadable (disk w) filepath = false ↔ tags_at w filepath = None.
Proof. unfold loadable, tags_at. by destruct (disk w !! filepath) as [[?|]|]. Qed.

(** No file becomes loadable or unloadable during the batch. *)
Lemma batch_file_loadable dry_run filepath n w q :
  loadable (disk (batch_file dry_run filepath n w).1) q = loadable (disk w) q.
Proof.
  rewrite batch_file_run. destruct (needs_fix (disk w) filepath) eqn:E; [|done].
  apply needs_fix_loads in E as [audio Hload]. simpl. unfold loadable.
  destruct (decide (q = filepath)) as [->|Hne].
  - rewrite (fix_comment_fields_tags _ _ _ audio), Hload; done.
  - by rewrite fix_comment_fields_other.
Qed.

Lemma batch_loop_skip dry_run (d0 : gmap string File) files : ∀ n w1 w2,
  disk w1 = disk w2 →
  (∀ q, loadable (disk w1) q = loadable d0 q) →
  ∃ out err,
    (for_acc files (batch_file dry_run) n w1).2
    = (for_acc (filter (λ p, loadable d0 p = true) files) (batch_file dry_run) n w2).2
    ∧ disk (for_acc files (batch_file dry_run) n w1).1
      = disk (for_acc (filter (λ p, loadable d0 p = true) files)
                (batch_file dry_run) n w2).1
    ∧ stdout (for_acc files (batch_file dry_run) n w1).1 = stdout w1 ++ out
    ∧ stdout (for_acc (filter (λ p, loadable d0 p = true) files)
                (batch_file dry_run) n w2).1 = stdout w2 ++ out
    ∧ stderr (for_acc files (batch_file dry_run) n w1).1 = stderr w1 ++ err
    ∧ stderr (for_acc (filter (λ p, loadable d0 p = true) files)
                (batch_file dry_run) n w2).1 = stderr w2 ++ err.
Proof.
  induction files as [|p files IH]; intros n w1 w2 Hd Hl.
  - exists [], []. simpl. by rewrite !app_nil_r.
  - rewrite filter_cons. destruct (loadable d0 p) eqn:Ep.
    + rewrite decide_True by done. simpl.
      destruct (batch_file_same dry_run p n w1 w2 Hd)
        as (out1 & err1 & Hr & Hdisk & Hout1 & Hout2 & Herr1 & Herr2).
      pose proof (batch_file_loadable dry_run p n w1) as Hl1.
      destruct (batch_file_step dry_run p n w1) as (v1 & o1 & ? & Hrun1 & _).
      destruct (batch_file_step dry_run p n w2) as (v2 & o2 & ? & Hrun2 & _).
      unfold mbind, M_bind. rewrite Hrun1, Hrun2 in *. simpl in *.
      injection Hr as Hr. rewrite <- Hr.
      destruct (IH (n + length (banners o1)) v1 v2 Hdisk)
        as (out & err & Hr' & Hdisk' & Hout1' & Hout2' & Herr1' & Herr2').
      { intros q. by rewrite Hl1. }
      exists (out1 ++ out), (err1 ++ err).
      rewrite Hout1', Hout2', Herr1', Herr2', Hout1, Hout2, Herr1, Herr2, !app_assoc.
      done.
    + rewrite decide_False by done.
      assert (Hp : tags_at w1 p = None) by (apply loadable_tags_at; by rewrite Hl).
      simpl. unfold mbind, M_bind. rewrite (batch_file_unloadable _ _ _ _ Hp).
      apply (IH n (log_call (CLoad p) w1) w2); done.
Qed.

Lemma batch_fix_unfold directory dry_run w :
  batch_fix directory dry_run w =
  match for_acc (glob w directory) (batch_file dry_run) 0
          (emit (MFound (length (glob w directory)) directory) w) with
  | (w', inr fixed_count) => (emit (MSummary fixed_count) w', inr tt)
  | (w', inl e) => (w', inl e)
  end.
Proof.
  unfold batch_fix, mbind, M_bind, print at 1.
  by destruct (for_acc _ _ _ _) as [w' [e|k]].
Qed.


(** C6, as stated, fails: the summary has no count of the files that
    failed to load.  A directory of three files, one corrupt, and the same
    directory with no corrupt file print the same lines, and the summary
    says 0, not 2 processed and 1 skipped. *)
Lemma batch_summary_hides_failures :
  length (filter (λ p, ¬ is_Some (tags_at one_corrupt_world p)) (three_files "music")) = 1
  ∧ length (filter (λ p, ¬ is_Some (tags_at all_good_world p)) (three_files "music")) = 0
  ∧ stdout (batch_fix "music" true one_corrupt_world).1 = [MFound 3 "music"; MSummary 0]
  ∧ stdout (batch_fix "music" true all_good_world).1 = [MFound 3 "music"; MSummary 0]
  ∧ stderr (batch_fix "music" true one_corrupt_world).1 = [].
Proof. repeat split; vm_compute; reflexivity. Qed.

(** C6, amended. In batch mode a failure to load one file does not abort
    the batch: the exception is caught silently and the file is skipped
    (the load is attempted and nothing else happens: no line is printed,
    nothing is written to standard error, no run of [fix_comment_fields] is
    started, the count is not touched, the file stays as it was); every
    listed file is still loaded in turn and the batch ends normally with
    its summary.  The summary has one number, the count of the files
    [fix_comment_fields] was run on.  The files that failed to load are
    neither counted nor reported: the batch prints the same lines after the
    "Found" line, the same summary, writes the same to standard error and
    leaves the same files as a batch whose listing has the loadable files
    only. *)
Theorem batch_skips_unloadable directory dry_run w w2 :
  disk w2 = disk w →
  glob w2 directory = filter (λ p, loadable (disk w) p = true) (glob w directory) →
  (∀ p n w0, tags_at w0 p = None →
     batch_file dry_run p n w0 = (log_call (CLoad p) w0, inr n))
  ∧ ∃ w' w2' out err cs,
      batch_fix directory dry_run w = (w', inr tt)
      ∧ batch_fix directory dry_run w2 = (w2', inr tt)
      ∧ stdout w' = stdout w ++ [MFound (length (glob w directory)) directory] ++ out
                      ++ [MSummary (length (banners out))]
      ∧ stdout w2' = stdout w2 ++ [MFound (length (glob w2 directory)) directory] ++ out
                      ++ [MSummary (length (banners out))]
      ∧ stderr w' = stderr w ++ err
      ∧ stderr w2' = stderr w2 ++ err
      ∧ disk w' = disk w2'
      ∧ calls w' = calls w ++ cs
      ∧ (∀ p, p ∈ glob w directory → CLoad p ∈ cs)
      ∧ (∀ q, tags_at w q = None → disk w' !! q = disk w !! q ∧ q ∉ banners out).
Proof.
  intros Hd Hg. split; [intros p n w0 H; by apply batch_file_unloadable|].
  rewrite !batch_fix_unfold.
  set (v1 := emit (MFound (length (glob w directory)) directory) w).
  set (v2 := emit (MFound (length (glob w2 directory)) directory) w2).
  destruct (batch_loop dry_run (glob w directory) 0 v1)
    as (w' & out & cs & Hrun & Hout & Hcs & _ & Hloads & Hskip & _).
  destruct (batch_loop dry_run (glob w2 directory) 0 v2)
    as (w2' & out2 & cs2 & Hrun2 & Hout2 & _).
  destruct (batch_loop_skip dry_run (disk w) (glob w directory) 0 v1 v2)
    as (o & err & Hr & Hdisk & Ho1 & Ho2 & He1 & He2); [by simpl|done|].
  rewrite <- Hg in Hr, Hdisk, Ho2, He2.
  rewrite Hrun in Hr, Hdisk, Ho1, He1 |- *. rewrite Hrun2 in Hr, Hdisk, Ho2, He2 |- *.
  simpl in *.
  assert (out = o) as <- by (rewrite Hout in Ho1; by apply app_inv_head in Ho1).
  assert (out2 = out) as -> by (rewrite Hout2 in Ho2; by apply app_inv_head in Ho2).
  exists (emit (MSummary (length (banners out))) w'),
         (emit (MSummary (length (banners out))) w2'), out, err, cs.
  simpl. rewrite Hout, Hout2. simpl.
  split; [done|]. split; [done|]. split; [by rewrite <- !app_assoc|].
  split; [by rewrite <- !app_assoc|]. done.
Qed.

Lemma batch_skips_unloadable_witness :
  batch_file false "b.mp3" 0 mixed_world = (log_call (CLoad "b.mp3") mixed_world, inr 0)
  ∧ ∃ w' w2' out err cs,
      batch_fix "music" false mixed_world = (w', inr tt)
      ∧ batch_fix "music" false loadable_only_world = (w2', inr tt)
      ∧ stdout w' = stdout mixed_world ++ [MFound 3 "music"] ++ out
                      ++ [MSummary (length (banners out))]
      ∧ stdout w2' = stdout loadable_only_world ++ [MFound 2 "music"] ++ out
                      ++ [MSummary (length (banners out))]
      ∧ stderr w' = stderr mixed_world ++ err
      ∧ stderr w2' = stderr loadable_only_world ++ err
      ∧ disk w' = disk w2'
      ∧ calls w' = calls mixed_world ++ cs
      ∧ CLoad "b.mp3" ∈ cs
      ∧ disk w' !! "b.mp3" = Some Corrupt
      ∧ "b.mp3" ∉ banners out.
Proof.
  destruct (batch_skips_unloadable "music" false mixed_world loadable_only_world)
    as (Hfile & w' & w2' & out & err & cs & Hrun & Hrun2 & Hout & Hout2 & Herr & Herr2
        & Hdisk & Hcs & Hloads & Hskip); [reflexivity|vm_compute; reflexivity|].
  split; [apply Hfile; reflexivity|].
  exists w', w2', out, err, cs.
  split; [exact Hrun|]. split; [exact Hrun2|]. split; [exact Hout|]. split; [exact Hout2|].
  split; [exact Herr|]. split; [exact Herr2|]. split; [exact Hdisk|]. split; [exact Hcs|].
  split; [apply Hloads; apply (bool_decide_unpack _); vm_compute; exact I|].
  destruct (Hskip "b.mp3") as [Hb Hnone]; [reflexivity|].
  split; [rewrite Hb; reflexivity|exact Hnone].
Defined.



(** * The entry point *)

Lemma index_elem_of x (l : list string) :
  x ∈ l → ∃ i, index x l = Some i ∧ i < length l.
Proof.
  induction l as [|y l IH]; [by intros ?%elem_of_nil|].
  intros Hin. simpl. destruct (String.eqb_spec y x) as [->|Hne].
  - exists 0. split; [done|]. lia.
  - apply elem_of_cons in Hin as [->|Hin]; [done|].
    destruct (IH Hin) as (i & -> & Hi). exists (S i). split; [done|]. lia.
Qed.

Lemma item_in_range i (l : list string) w :
  i < length l → ∃ x, item i l w = (w, inr x).
Proof.
  intros Hi. unfold item. destruct (lookup_lt_is_Some_2 l i Hi) as [x ->]. by exists x.
Qed.

(** With no argument the script prints its usage and exits with status 1. *)
Lemma run_script_usage argv w :
  length argv < 2 → run_script argv w = (emit MUsage w, 1).
Proof.
  intros H. unfold run_script, main.
  destruct (Nat.ltb_spec (length argv) 2) as [_|?]; [done|lia].
Qed.

(** Every other run ends with status 0, whatever happened to the files
    (with a console that accepts every line and a save that succeeds, as
    [print] and [save] are modelled). *)
Lemma run_script_status argv w :
  (run_script argv w).2 = if (length argv <? 2)%nat then 1 else 0.
Proof.
  unfold run_script, main.
  destruct (Nat.ltb_spec (length argv) 2) as [?|Hlen]; [done|].
  case_bool_decide as Hbatch.
  - destruct (index_elem_of _ _ Hbatch) as (i & -> & Hi).
    destruct (Nat.ltb_spec (i + 1) (length argv)) as [Hdir|?]; [|done].
    destruct (item_in_range (i + 1) argv w Hdir) as [directory Hitem].
    unfold mbind, M_bind. rewrite Hitem.
    destruct (batch_fix_run directory
                (negb (bool_decide ("--apply" ∈ argv))) w) as (w' & ? & ? & -> & _).
    done.
  - destruct (item_in_range 1 argv w) as [filepath Hitem]; [lia|].
    unfold mbind, M_bind. rewrite Hitem.
    pose proof (fix_comment_fields_returns filepath
                  (negb (bool_decide ("--apply" ∈ argv))) w) as Hr.
    destruct (fix_comment_fields _ _ _) as [w' r]. simpl in Hr. by subst r.
Qed.

(** C8, at the input where the code departs from it.  The invocation
    [fix_comments.py --batch], which lacks the directory that must follow
    [--batch], prints the error line and exits with status 0, while the
    invocation with no argument prints the usage and exits with status 1. *)
Theorem batch_without_directory_exits_zero w :
  run_script ["fix_comments.py"; "--batch"] w = (emit MBatchNeedsDir w, 0)
  ∧ run_script ["fix_comments.py"] w = (emit MUsage w, 1).
Proof. split; reflexivity. Qed.

(** * Further properties of [fix_comment_fields] *)

(** A path that does not load (no such file, or a file the tag library
    rejects) is reported and nothing else happens: the banner and the error
    line are printed, the traceback goes to standard error, the library was
    called once, the files are untouched and the call returns normally. *)
Theorem unloadable_file_reported filepath dry_run w :
  tags_at w filepath = None →
  fix_comment_fields filepath dry_run w =
  (mkWorld (disk w) (glob w)
     (stdout w ++ [MBanner filepath; MError (LoadError filepath)])
     (stderr w ++ [LoadError filepath])
     (calls w ++ [CLoad filepath]),
   inr tt).
Proof.
  intros H. apply fix_comment_fields_unloadable. intros tags Htags.
  unfold tags_at in H. by rewrite Htags in H.
Qed.

Lemma unloadable_file_reported_witness :
  fix_comment_fields "missing.mp3" false scenario_world =
  (mkWorld (disk scenario_world) (glob scenario_world)
     (stdout scenario_world ++ [MBanner "missing.mp3"; MError (LoadError "missing.mp3")])
     (stderr scenario_world ++ [LoadError "missing.mp3"])
     (calls scenario_world ++ [CLoad "missing.mp3"]),
   inr tt).
Proof.
  apply (unloadable_file_reported "missing.mp3" false scenario_world). reflexivity.
Defined.



(** After an applying run the file holds exactly the frames it held that
    are not COMM frames matching a removal rule, each as it was: no frame
    is added, none is altered. *)
Theorem apply_removes_exactly filepath w (audio : gmap string Frame) :
  disk w !! filepath = Some (Tagged audio) →
  ∃ audio',
    tags_at (fix_comment_fields filepath false w).1 filepath = Some audio'
    ∧ audio' ⊆ audio
    ∧ ∀ key value,
        audio' !! key = Some value ↔
        audio !! key = Some value
        ∧ ¬ (String.prefix "COMM" key = true ∧ matches_removal_rule value).
Proof.
  intros H. exists (cleaned audio). unfold tags_at.
  rewrite (fix_comment_fields_tags _ _ _ _ H). split; [done|].
  split; [apply map_filter_subseteq|].
  intros key value. rewrite lookup_cleaned, <- removable_rule.
  destruct (audio !! key) as [v|]; [|by split; [|intros []]].
  destruct (removable (key, v)) eqn:R.
  - split; [done|]. intros [? Hn]. by simplify_eq.
  - split.
    + intros ?. simplify_eq. split; [done|]. by rewrite R.
    + by intros [? _].
Qed.

Lemma apply_removes_exactly_witness :
  ∃ audio',
    tags_at (fix_comment_fields "song.mp3" false titled_world).1 "song.mp3" = Some audio'
    ∧ audio' ⊆ titled_tags
    ∧ ∀ key value,
        audio' !! key = Some value ↔
        titled_tags !! key = Some value
        ∧ ¬ (String.prefix "COMM" key = true ∧ matches_removal_rule value).
Proof.
  apply (apply_removes_exactly "song.mp3" titled_world titled_tags). reflexivity.
Defined.

(** What a run asks of the tag library beyond loading: it saves only the
    file it was given, only in apply mode and only when that file has a
    frame to remove; it deletes only keys of COMM frames matching a removal
    rule, and only in apply mode. *)
Theorem save_and_delete_only_when_needed filepath dry_run w :
  ∃ cs,
    calls (fix_comment_fields filepath dry_run w).1 = calls w ++ cs
    ∧ (∀ q, CSave q ∈ cs ↔
            q = filepath ∧ dry_run = false ∧ needs_fix (disk w) filepath = true)
    ∧ (∀ key, CDel key ∈ cs ↔
            dry_run = false
            ∧ ∃ audio value, disk w !! filepath = Some (Tagged audio)
                ∧ audio !! key = Some value
                ∧ String.prefix "COMM" key = true ∧ matches_removal_rule value).
Proof.
  assert (Hneeds : ∀ audio, disk w !! filepath = Some (Tagged audio) →
            needs_fix (disk w) filepath = true ↔ removed_keys audio ≠ []).
  { intros audio H. unfold needs_fix. rewrite H. apply existsb_removable. }
  assert (Hsome : ∀ audio key value, removed_keys audio = [] →
            audio !! key = Some value → String.prefix "COMM" key = true →
            ¬ matches_removal_rule value).
  { intros audio key value Hrm Hv Hp Hm.
    assert (R : removable (key, value) = true) by by apply removable_rule.
    by rewrite (proj1 (removed_keys_nil audio) Hrm _ _ Hv) in R. }
  fix_cases filepath dry_run w audio Hload Hrm; cbn [fst calls]; eexists;
    (split; [done|]).
  - split.
    + intros q. rewrite list_elem_of_singleton. split; [done|].
      intros (_ & _ & ?%(Hneeds _ Hload)). done.
    + intros key. rewrite list_elem_of_singleton. split; [done|].
      intros (_ & a & v & ? & Hv & Hp & Hm). simplify_eq. by destruct (Hsome _ _ _ Hrm Hv Hp).
  - split.
    + intros q. rewrite list_elem_of_singleton. split; [done|]. by intros (_ & ? & _).
    + intros key. rewrite list_elem_of_singleton. split; [done|]. by intros [? _].
  - split.
    + intros q. rewrite !elem_of_app, list_elem_of_fmap, !elem_of_cons, !elem_of_nil.
      split.
      * intros [[?|[]]|[(? & ? & _)|[?|[?|[]]]]]; simplify_eq.
        split; [done|]. split; [done|]. by apply (Hneeds _ Hload).
      * intros (-> & _ & _). right. right. by left.
    + intros key. rewrite !elem_of_app, list_elem_of_fmap, !elem_of_cons, !elem_of_nil.
      split.
      * intros [[?|[]]|[(k & ? & Hk)|[?|[?|[]]]]]; simplify_eq. split; [done|].
        apply elem_of_removed_keys in Hk as (v & Hv & [Hp Hm]%removable_rule). eauto 8.
      * intros (_ & a & v & ? & Hv & Hp & Hm). simplify_eq. right. left.
        exists key. split; [done|]. apply elem_of_removed_keys.
        exists v. split; [done|]. by apply removable_rule.
  - split.
    + intros q. rewrite list_elem_of_singleton. split; [done|].
      intros (_ & _ & [a Ha]%needs_fix_loads). by destruct (Hload a).
    + intros key. rewrite list_elem_of_singleton. split; [done|].
      intros (_ & a & _ & Ha & _). by destruct (Hload a).
Qed.

Lemma save_and_delete_only_when_needed_witness :
  ∃ cs,
    calls (fix_comment_fields "song.mp3" false scenario_world).1
      = calls scenario_world ++ cs
    ∧ CSave "song.mp3" ∈ cs
    ∧ CDel "COMM:Songs-DB_Custom1:XXX" ∉ cs.
Proof.
  destruct (save_and_delete_only_when_needed "song.mp3" false scenario_world)
    as (cs & Hcs & Hsave & Hdel).
  exists cs. split; [exact Hcs|]. split.
  - apply Hsave. repeat split; reflexivity.
  - intros (_ & audio & value & Hload & Hv & _ & Hm)%Hdel.
    injection Hload as <-. vm_compute in Hv. injection Hv as <-.
    destruct Hm as [[Hd _]|[Hd _]]; discriminate Hd.
Defined.

(** ** The number a run reports *)

Lemma length_removed_keys (audio : gmap string Frame) :
  length (removed_keys audio) + size (cleaned audio) = size audio.
Proof.
  unfold removed_keys, cleaned. rewrite length_fmap.
  induction audio as [|key value audio Hkey Hfirst IH] using map_first_key_ind.
  - rewrite map_to_list_empty, map_filter_empty, map_size_empty. reflexivity.
  - rewrite map_to_list_insert_first_key by done.
    rewrite filter_cons, map_size_insert_None by done.
    destruct (removable (key, value)) eqn:R.
    + rewrite decide_True by done. simpl.
      rewrite map_filter_insert_False, delete_id by (done || congruence). lia.
    + rewrite decide_False by congruence.
      rewrite map_filter_insert_True by done.
      rewrite map_size_insert_None; [lia|].
      apply map_lookup_filter_None. by left.
Qed.

(** The number a run reports is the number of frames an applying run takes
    out of the file: a dry run ends by announcing [n] removals, an applying
    run prints that it removed [n], and the tag set saved is [n] frames
    smaller than the one loaded, for the same [n] > 0. *)
Theorem reported_count_is_removed_count filepath w (audio : gmap string Frame) :
  disk w !! filepath = Some (Tagged audio) →
  needs_fix (disk w) filepath = true →
  ∃ n audio',
    0 < n
    ∧ last (stdout (fix_comment_fields filepath true w).1) = Some (MDryRun n)
    ∧ MApplied n ∈ stdout (fix_comment_fields filepath false w).1
    ∧ tags_at (fix_comment_fields filepath false w).1 filepath = Some audio'
    ∧ n + size audio' = size audio.
Proof.
  intros Hload Hneeds.
  assert (Hrm : removed_keys audio ≠ []).
  { apply existsb_removable. unfold needs_fix in Hneeds. by rewrite Hload in Hneeds. }
  exists (length (removed_keys audio)), (cleaned audio).
  split; [destruct (removed_keys audio); [done|simpl; lia]|].
  rewrite (fix_comment_fields_dry _ _ _ Hload Hrm).
  unfold tags_at. rewrite (fix_comment_fields_tags _ _ _ _ Hload).
  rewrite (fix_comment_fields_apply _ _ _ Hload Hrm). cbn [fst stdout].
  split; [by rewrite !app_assoc, last_snoc|].
  split; [|split; [done|apply length_removed_keys]].
  apply elem_of_app. right. apply elem_of_app. right. by left.
Qed.

Lemma reported_count_is_removed_count_witness :
  ∃ n audio',
    0 < n
    ∧ last (stdout (fix_comment_fields "song.mp3" true titled_world).1) = Some (MDryRun n)
    ∧ MApplied n ∈ stdout (fix_comment_fields "song.mp3" false titled_world).1
    ∧ tags_at (fix_comment_fields "song.mp3" false titled_world).1 "song.mp3" = Some audio'
    ∧ n + size audio' = size titled_tags.
Proof.
  apply (reported_count_is_removed_count "song.mp3" titled_world titled_tags);
    reflexivity.
Defined.

(** A run on one file leaves every other file as it is, and does not
    change which paths the directory listing gives. *)
Theorem other_files_untouched filepath dry_run w q :
  q ≠ filepath →
  disk (fix_comment_fields filepath dry_run w).1 !! q = disk w !! q
  ∧ glob (fix_comment_fields filepath dry_run w).1 = glob w.
Proof.
  intros H. split; [by apply fix_comment_fields_other|apply fix_comment_fields_glob].
Qed.

Lemma other_files_untouched_witness :
  disk (fix_comment_fields "a.mp3" false mixed_world).1 !! "c.mp3"
  = disk mixed_world !! "c.mp3"
  ∧ glob (fix_comment_fields "a.mp3" false mixed_world).1 = glob mixed_world.
Proof.
  apply (other_files_untouched "a.mp3" false mixed_world "c.mp3"). discriminate.
Defined.

(** * Further properties of [batch_fix] *)

Lemma cleaned_cleaned (audio : gmap string Frame) : cleaned (cleaned audio) = cleaned audio.
Proof. apply cleaned_id, removed_keys_cleaned. Qed.

Lemma needs_fix_false_cleaned (d : gmap string File) filepath (audio : gmap string Frame) :
  d !! filepath = Some (Tagged audio) → needs_fix d filepath = false → cleaned audio = audio.
Proof.
  intros H Hn. apply cleaned_id. unfold needs_fix in Hn. rewrite H in Hn.
  destruct (removed_keys audio) as [|k ks] eqn:E; [done|].
  assert (existsb removable (map_to_list audio) = true); [|congruence].
  apply existsb_removable. by rewrite E.
Qed.

Lemma needs_fix_cleaned (d : gmap string File) filepath (audio : gmap string Frame) :
  d !! filepath = Some (Tagged (cleaned audio)) → needs_fix d filepath = false.
Proof.
  intros H. unfold needs_fix. rewrite H.
  destruct (existsb removable (map_to_list (cleaned audio))) eqn:E; [|done].
  apply existsb_removable in E. by destruct E; apply removed_keys_cleaned.
Qed.

(** The disk after one file of the batch. *)
Lemma batch_file_disk dry_run filepath n w :
  disk (batch_file dry_run filepath n w).1
  = (if dry_run then disk w else clean_file (disk w) filepath)
  ∧ glob (batch_file dry_run filepath n w).1 = glob w.
Proof.
  rewrite batch_file_run. unfold clean_file.
  destruct (needs_fix (disk w) filepath) eqn:E; simpl.
  - apply needs_fix_loads in E as [audio Hload]. rewrite Hload.
    set (w0 := emit (MBatchFile filepath) (log_call (CLoad filepath) w)).
    assert (Hload0 : disk w0 !! filepath = Some (Tagged audio)) by done.
    split; [|by rewrite fix_comment_fields_glob].
    destruct dry_run; [by rewrite fix_comment_fields_dry_disk|].
    apply map_eq. intros q. destruct (decide (q = filepath)) as [->|Hne].
    + by rewrite (fix_comment_fields_tags _ _ _ _ Hload0), lookup_insert_eq.
    + by rewrite fix_comment_fields_other, lookup_insert_ne.
  - split; [|done]. destruct dry_run; [done|].
    destruct (disk w !! filepath) as [[audio|]|] eqn:Hload; try done.
    by rewrite (needs_fix_false_cleaned _ _ _ Hload E), insert_id.
Qed.

Lemma batch_loop_disk dry_run files : ∀ n w,
  disk (for_acc files (batch_file dry_run) n w).1
  = (if dry_run then disk w else foldl clean_file (disk w) files)
  ∧ glob (for_acc files (batch_file dry_run) n w).1 = glob w.
Proof.
  induction files as [|p files IH]; intros n w; simpl; [by destruct dry_run|].
  destruct (batch_file_step dry_run p n w) as (w1 & out1 & cs1 & Hrun1 & _).
  destruct (batch_file_disk dry_run p n w) as [Hd1 Hg1].
  unfold mbind, M_bind. rewrite Hrun1 in *. simpl in Hd1, Hg1.
  destruct (IH (n + length (banners out1)) w1) as [Hd Hg].
  rewrite Hd, Hg, Hg1. split; [|done]. destruct dry_run; congruence.
Qed.

Lemma lookup_foldl_clean_file (files : list string) (d : gmap string File) q :
  foldl clean_file d files !! q =
  match d !! q with
  | Some (Tagged audio) =>
      Some (Tagged (if bool_decide (q ∈ files) then cleaned audio else audio))
  | other => other
  end.
Proof.
  revert d. induction files as [|p files IH]; intros d; simpl.
  - destruct (d !! q) as [[audio|]|]; done.
  - rewrite IH. unfold clean_file.
    destruct (decide (q = p)) as [->|Hne].
    + destruct (d !! p) as [[audio|]|] eqn:E; rewrite ?lookup_insert_eq, ?E; try done.
      rewrite cleaned_cleaned, (bool_decide_eq_true_2 (p ∈ p :: files)) by left.
      by case_bool_decide.
    + assert (Hsame : (match d !! p with
                       | Some (Tagged audio) => <[p:=Tagged (cleaned audio)]> d
                       | _ => d end) !! q = d !! q).
      { destruct (d !! p) as [[audio|]|]; [by rewrite lookup_insert_ne|done..]. }
      rewrite Hsame. destruct (d !! q) as [[audio|]|]; try done.
      do 2 f_equal. repeat case_bool_decide; try done; set_solver.
Qed.

Lemma batch_file_dry_calls filepath n w :
  ∃ cs, calls (batch_file true filepath n w).1 = calls w ++ cs
        ∧ ∀ c, c ∈ cs → c = CLoad filepath.
Proof.
  rewrite batch_file_run. destruct (needs_fix (disk w) filepath); simpl.
  - destruct (fix_comment_fields_calls filepath true
                (emit (MBatchFile filepath) (log_call (CLoad filepath) w)))
      as (cs & Hcs & Hdry & _). rewrite Hcs, (Hdry eq_refl). simpl.
    exists [CLoad filepath; CLoad filepath]. split; [by rewrite <- app_assoc|].
    intros c [->|[->|[]%elem_of_nil]%elem_of_cons]%elem_of_cons; done.
  - exists [CLoad filepath]. split; [done|]. by intros c ->%list_elem_of_singleton.
Qed.

Lemma batch_loop_dry_calls files : ∀ n w,
  ∃ cs, calls (for_acc files (batch_file true) n w).1 = calls w ++ cs
        ∧ ∀ c, c ∈ cs → ∃ q, c = CLoad q ∧ q ∈ files.
Proof.
  induction files as [|p files IH]; intros n w; simpl.
  - exists []. split; [by rewrite app_nil_r|]. by intros c ?%elem_of_nil.
  - destruct (batch_file_step true p n w) as (w1 & out1 & cs1 & Hrun1 & _).
    destruct (batch_file_dry_calls p n w) as (cs & Hcs & Hloads).
    unfold mbind, M_bind. rewrite Hrun1 in *. simpl in Hcs.
    destruct (IH (n + length (banners out1)) w1) as (cs' & Hcs' & Hloads').
    exists (cs ++ cs'). split; [by rewrite Hcs', Hcs, <- app_assoc|].
    intros c [Hc|Hc]%elem_of_app.
    + exists p. split; [by apply Hloads|left].
    + destruct (Hloads' c Hc) as (q & -> & Hq). exists q. split; [done|by right].
Qed.

Lemma batch_fix_disk directory dry_run w :
  disk (batch_fix directory dry_run w).1
  = (if dry_run then disk w else foldl clean_file (disk w) (glob w directory))
  ∧ glob (batch_fix directory dry_run w).1 = glob w.
Proof.
  set (w0 := emit (MFound (length (glob w directory)) directory) w).
  destruct (batch_loop dry_run (glob w directory) 0 w0) as (w' & out & cs & Hrun & _).
  destruct (batch_loop_disk dry_run (glob w directory) 0 w0) as [Hd Hg].
  assert (Heq : batch_fix directory dry_run w
                = (emit (MSummary (length (banners out))) w', inr tt)).
  { unfold batch_fix, mbind, M_bind, print at 1. fold w0. by rewrite Hrun. }
  rewrite Hrun in Hd, Hg. rewrite Heq. simpl in *. by rewrite Hd, Hg.
Qed.

(** A dry-run batch changes no file, and all it asks of the tag library is
    to load files of the listing: no deletion, no save. *)
Theorem batch_dry_run_pure directory w :
  disk (batch_fix directory true w).1 = disk w
  ∧ ∃ cs, calls (batch_fix directory true w).1 = calls w ++ cs
          ∧ ∀ c, c ∈ cs → ∃ q, c = CLoad q ∧ q ∈ glob w directory.
Proof.
  split; [apply (batch_fix_disk directory true w)|].
  set (w0 := emit (MFound (length (glob w directory)) directory) w).
  destruct (batch_loop true (glob w directory) 0 w0) as (w' & out & cs & Hrun & _).
  destruct (batch_loop_dry_calls (glob w directory) 0 w0) as (cs' & Hcs & Hloads).
  assert (Heq : batch_fix directory true w
                = (emit (MSummary (length (banners out))) w', inr tt)).
  { unfold batch_fix, mbind, M_bind, print at 1. fold w0. by rewrite Hrun. }
  rewrite Hrun in Hcs. rewrite Heq. simpl in *. eauto.
Qed.

Lemma batch_dry_run_pure_witness :
  disk (batch_fix "music" true mixed_world).1 = disk mixed_world
  ∧ ∃ cs, calls (batch_fix "music" true mixed_world).1 = calls mixed_world ++ cs
          ∧ CSave "a.mp3" ∉ cs.
Proof.
  destruct (batch_dry_run_pure "music" mixed_world) as (Hdisk & cs & Hcs & Hloads).
  split; [exact Hdisk|]. exists cs. split; [exact Hcs|].
  intros Hin. destruct (Hloads _ Hin) as (q & Hq & _). discriminate Hq.
Defined.

(** An applying batch cleans every file of the listing that loads and
    touches nothing else: a listed file that loads holds afterwards its tag
    set without the removable frames, so none of the listed files needs
    fixing any more; files outside the listing and files that do not load
    are as they were. *)
Theorem batch_apply_cleans_listing directory w :
  let w' := (batch_fix directory false w).1 in
  (∀ q audio, q ∈ glob w directory → disk w !! q = Some (Tagged audio) →
     disk w' !! q = Some (Tagged (cleaned audio)))
  ∧ (∀ q, q ∈ glob w directory → needs_fix (disk w') q = false)
  ∧ (∀ q, q ∉ glob w directory → disk w' !! q = disk w !! q)
  ∧ (∀ q, tags_at w q = None → disk w' !! q = disk w !! q)
  ∧ glob w' = glob w.
Proof.
  intros w'. destruct (batch_fix_disk directory false w) as [Hd Hg].
  fold w' in Hd, Hg.
  assert (Hlook : ∀ q, disk w' !! q =
            match disk w !! q with
            | Some (Tagged audio) =>
                Some (Tagged (if bool_decide (q ∈ glob w directory)
                              then cleaned audio else audio))
            | other => other
            end).
  { intros q. rewrite Hd. apply lookup_foldl_clean_file. }
  split; [|split; [|split; [|split]]]; [| | | |done].
  - intros q audio Hq Hload. by rewrite Hlook, Hload, bool_decide_eq_true_2.
  - intros q Hq. destruct (disk w !! q) as [[audio|]|] eqn:Hload.
    + apply (needs_fix_cleaned _ _ audio).
      by rewrite Hlook, Hload, bool_decide_eq_true_2.
    + unfold needs_fix. by rewrite Hlook, Hload.
    + unfold needs_fix. by rewrite Hlook, Hload.
  - intros q Hq. rewrite Hlook. destruct (disk w !! q) as [[audio|]|]; try done.
    by rewrite bool_decide_eq_false_2.
  - intros q Hq. rewrite Hlook. unfold tags_at in Hq.
    by destruct (disk w !! q) as [[audio|]|].
Qed.

Lemma batch_apply_cleans_listing_witness :
  disk (batch_fix "music" false mixed_world).1 !! "c.mp3"
  = Some (Tagged (cleaned titled_tags))
  ∧ needs_fix (disk (batch_fix "music" false mixed_world).1) "a.mp3" = false
  ∧ disk (batch_fix "music" false mixed_world).1 !! "b.mp3" = disk mixed_world !! "b.mp3".
Proof.
  destruct (batch_apply_cleans_listing "music" mixed_world)
    as (Hclean & Hneeds & _ & Hskip & _).
  split; [apply Hclean; [apply (bool_decide_unpack _); vm_compute; exact I|reflexivity]|].
  split; [apply Hneeds; apply (bool_decide_unpack _); vm_compute; exact I|].
  apply Hskip. reflexivity.
Defined.

Lemma batch_loop_nothing_to_fix dry_run files : ∀ n w,
  (∀ p, p ∈ files → needs_fix (disk w) p = false) →
  for_acc files (batch_file dry_run) n w =
  (mkWorld (disk w) (glob w) (stdout w) (stderr w) (calls w ++ (CLoad <$> files)),
   inr n).
Proof.
  induction files as [|p files IH]; intros n [d g o e c] H; simpl.
  - by rewrite app_nil_r.
  - unfold mbind, M_bind. rewrite batch_file_run. simpl in *.
    rewrite H by left. rewrite IH; simpl.
    + by rewrite <- app_assoc.
    + intros q Hq. apply H. by right.
Qed.

(** Running the batch again after an applying batch finds nothing to do:
    in either mode the second batch only loads the listed files, changes no
    file, starts no run of [fix_comment_fields] and reports 0 files. *)
Theorem batch_apply_then_batch directory dry_run w :
  let w1 := (batch_fix directory false w).1 in
  batch_fix directory dry_run w1 =
  (mkWorld (disk w1) (glob w1)
     (stdout w1 ++ [MFound (length (glob w directory)) directory; MSummary 0])
     (stderr w1)
     (calls w1 ++ (CLoad <$> glob w directory)),
   inr tt).
Proof.
  intros w1. destruct (batch_fix_disk directory false w) as [Hd Hg]. fold w1 in Hd, Hg.
  assert (Hclean : ∀ p, p ∈ glob w directory → needs_fix (disk w1) p = false).
  { intros p Hp. unfold needs_fix. rewrite Hd, lookup_foldl_clean_file.
    destruct (disk w !! p) as [[audio|]|] eqn:Hload; try done.
    rewrite bool_decide_eq_true_2 by done.
    destruct (existsb removable (map_to_list (cleaned audio))) eqn:E; [|done].
    apply existsb_removable in E. by destruct E; apply removed_keys_cleaned. }
  unfold batch_fix, mbind, M_bind, print at 1. rewrite Hg.
  rewrite batch_loop_nothing_to_fix by done.
  unfold print, emit; simpl. by rewrite Hg, <- app_assoc.
Qed.

(** The order in which the directory listing gives the files does not
    matter for what the batch leaves on disk: two batches that start from
    the same files and get the same paths in different orders end with the
    same files. *)
Theorem batch_order_irrelevant directory dry_run w1 w2 :
  disk w1 = disk w2 →
  glob w1 directory ≡ₚ glob w2 directory →
  disk (batch_fix directory dry_run w1).1 = disk (batch_fix directory dry_run w2).1.
Proof.
  intros Hdisk Hperm.
  destruct (batch_fix_disk directory dry_run w1) as [-> _].
  destruct (batch_fix_disk directory dry_run w2) as [-> _].
  destruct dry_run; [done|]. apply map_eq. intros q.
  rewrite !lookup_foldl_clean_file, Hdisk.
  destruct (disk w2 !! q) as [[audio|]|]; try done.
  rewrite (bool_decide_ext (q ∈ glob w1 directory) (q ∈ glob w2 directory)); [done|].
  by rewrite Hperm.
Qed.

Lemma batch_order_irrelevant_witness :
  disk (batch_fix "music" false mixed_world).1
  = disk (batch_fix "music" false shuffled_world).1.
Proof.
  apply (batch_order_irrelevant "music" false mixed_world shuffled_world); [reflexivity|].
  apply (bool_decide_unpack _). vm_compute. exact I.
Defined.

Lemma batch_loop_bound dry_run files : ∀ n w,
  ∃ w' k, for_acc files (batch_file dry_run) n w = (w', inr (n + k)) ∧ (k ≤ length files)%nat.
Proof.
  induction files as [|p files IH]; intros n w; simpl.
  - exists w, 0. split; [by rewrite Nat.add_0_r|lia].
  - destruct (batch_file_step dry_run p n w)
      as (w1 & out1 & cs1 & Hrun1 & _ & _ & _ & _ & Hb1 & _).
    destruct (IH (n + length (banners out1)) w1) as (w' & k & Hrun & Hk).
    exists w', (length (banners out1) + k). unfold mbind, M_bind.
    rewrite Hrun1, Hrun, Nat.add_assoc. split; [done|].
    rewrite Hb1. destruct (needs_fix (disk w) p); simpl; lia.
Qed.

(** The batch always ends with its two counts, and the second never
    exceeds the first: it prints how many files the listing has, and last
    how many of them need fixing, be the listing empty or full of files
    that do not load. *)
Theorem batch_summary_bounded directory dry_run w :
  ∃ out n,
    stdout (batch_fix directory dry_run w).1
    = stdout w ++ [MFound (length (glob w directory)) directory] ++ out ++ [MSummary n]
    ∧ (n ≤ length (glob w directory))%nat
    ∧ (glob w directory = [] → out = [] ∧ n = 0).
Proof.
  destruct (batch_fix_run directory dry_run w)
    as (w' & out & cs & Hrun & Hout & _).
  set (w0 := emit (MFound (length (glob w directory)) directory) w).
  destruct (batch_loop dry_run (glob w directory) 0 w0)
    as (w1 & out1 & cs1 & Hrun1 & Hout1 & _).
  destruct (batch_loop_bound dry_run (glob w directory) 0 w0) as (w2 & k & Hrun2 & Hk).
  assert (Heq : batch_fix directory dry_run w
                = (emit (MSummary (length (banners out1))) w1, inr tt)).
  { unfold batch_fix, mbind, M_bind, print at 1. fold w0. by rewrite Hrun1. }
  rewrite Hrun1 in Hrun2. simplify_eq/=.
  exists out1, (length (banners out1)). rewrite Heq. simpl. rewrite Hout1. simpl.
  split; [by rewrite <- !app_assoc|]. split; [lia|].
  intros Hnil. rewrite Hnil in Hrun1. simpl in Hrun1. unfold mret, M_ret in Hrun1.
  simplify_eq. destruct out1 as [|m out1]; [done|].
  apply (f_equal length) in Hout1. rewrite length_app in Hout1. simpl in Hout1. lia.
Qed.

Lemma batch_summary_bounded_witness :
  ∃ out n,
    stdout (batch_fix "music" true scenario_world).1
    = stdout scenario_world ++ [MFound 0 "music"] ++ out ++ [MSummary n]
    ∧ out = [] ∧ n = 0.
Proof.
  destruct (batch_summary_bounded "music" true scenario_world)
    as (out & n & Hout & _ & Hempty).
  exists out, n. split; [exact Hout|]. apply Hempty. reflexivity.
Defined.

(** * Further properties of the entry point *)

Lemma index_app_first x (pre post : list string) :
  x ∉ pre → index x (pre ++ x :: post) = Some (length pre).
Proof.
  induction pre as [|y pre IH]; intros H; simpl.
  - by rewrite String.eqb_refl.
  - destruct (String.eqb_spec y x) as [->|Hne]; [by destruct H; left|].
    rewrite IH; [done|]. intros Hin. apply H. by right.
Qed.

(** In batch mode the directory is the argument that follows the first
    [--batch], wherever that stands on the command line and whatever the
    argument is; the batch applies the changes exactly when [--apply]
    occurs somewhere among the arguments. *)
Theorem batch_directory_follows_flag (pre post : list string) directory w :
  "--batch" ∉ pre →
  main (pre ++ "--batch" :: directory :: post) w
  = batch_fix directory
      (negb (bool_decide ("--apply" ∈ pre ++ "--batch" :: directory :: post))) w.
Proof.
  intros Hpre. unfold main.
  destruct (Nat.ltb_spec (length (pre ++ "--batch" :: directory :: post)) 2) as [Hlen|_].
  { rewrite length_app in Hlen. simpl in Hlen. lia. }
  rewrite bool_decide_eq_true_2 by (apply elem_of_app; right; left).
  rewrite index_app_first by done.
  destruct (Nat.ltb_spec (length pre + 1) (length (pre ++ "--batch" :: directory :: post)))
    as [_|Hlen]; [|rewrite length_app in Hlen; simpl in Hlen; lia].
  unfold mbind, M_bind, item.
  replace ((pre ++ "--batch" :: directory :: post) !! (length pre + 1))
    with (Some directory); [done|].
  rewrite lookup_app_r by lia. by replace (length pre + 1 - length pre) with 1 by lia.
Qed.

Lemma batch_directory_follows_flag_witness :
  main (["fix_comments.py"; "--apply"] ++ "--batch" :: "music" :: []) mixed_world
  = batch_fix "music" false mixed_world.
Proof.
  apply (batch_directory_follows_flag ["fix_comments.py"; "--apply"] [] "music" mixed_world).
  apply (bool_decide_unpack _). vm_compute. exact I.
Defined.

(** Without [--apply] on the command line the script changes no file,
    whatever the other arguments are: single-file and batch mode then run
    dry. *)
Theorem without_apply_nothing_changes (argv : list string) w :
  "--apply" ∉ argv → disk (run_script argv w).1 = disk w.
Proof.
  intros Hdry. unfold run_script, main.
  destruct (Nat.ltb_spec (length argv) 2) as [?|Hlen]; [done|].
  rewrite (bool_decide_eq_false_2 _ Hdry). simpl negb.
  case_bool_decide as Hbatch.
  - destruct (index_elem_of _ _ Hbatch) as (i & -> & Hi).
    destruct (Nat.ltb_spec (i + 1) (length argv)) as [Hdir|?]; [|done].
    destruct (item_in_range (i + 1) argv w Hdir) as [directory Hitem].
    unfold mbind, M_bind. rewrite Hitem. cbn [negb].
    destruct (batch_fix_disk directory true w) as [Hd _].
    destruct (batch_fix_run directory true w) as (w' & ? & ? & Hrun & _).
    rewrite Hrun in *. done.
  - destruct (item_in_range 1 argv w) as [filepath Hitem]; [lia|].
    unfold mbind, M_bind. rewrite Hitem. cbn [negb].
    pose proof (fix_comment_fields_returns filepath true w) as Hr.
    pose proof (fix_comment_fields_dry_disk filepath w) as Hd.
    destruct (fix_comment_fields filepath true w) as [w' r]. simpl in *. by subst r.
Qed.

Lemma without_apply_nothing_changes_witness :
  disk (run_script ["fix_comments.py"; "--batch"; "music"] mixed_world).1
  = disk mixed_world.
Proof.
  apply (without_apply_nothing_changes ["fix_comments.py"; "--batch"; "music"] mixed_world).
  apply (bool_decide_unpack _). vm_compute. exact I.
Defined.

(** * Further properties of the helpers *)

Lemma length_append (s1 s2 : string) :
  String.length (s1 ++ s2)%string = String.length s1 + String.length s2.
Proof. induction s1 as [|a s1 IH]; simpl; [done|]. by rewrite IH. Qed.

Lemma length_substring_0 (n : nat) (s : string) :
  (n ≤ String.length s)%nat → String.length (substring 0 n s) = n.
Proof.
  revert s. induction n as [|n IH]; intros s H.
  - by destruct s.
  - destruct s as [|a s]; simpl in *; [lia|]. rewrite IH; [done|lia].
Qed.

Lemma prefix_substring_append (n : nat) (s t : string) :
  String.prefix (substring 0 n s) (substring 0 n s ++ t)%string = true.
Proof.
  revert s. induction n as [|n IH]; intros s.
  - destruct s; simpl; by destruct t.
  - destruct s as [|a s]; simpl; [by destruct t|].
    destruct (Ascii.ascii_dec a a); [apply IH|done].
Qed.

Lemma prefix_substring (n : nat) (s : string) :
  String.prefix (substring 0 n s) s = true.
Proof.
  revert s. induction n as [|n IH]; intros s.
  - by destruct s.
  - destruct s as [|a s]; simpl; [done|].
    destruct (Ascii.ascii_dec a a); [apply IH|done].
Qed.

(** A preview of [n] characters is the text itself when the text has at
    most [n] characters; otherwise it is the first [n] characters followed
    by three dots, so it never has more than [n + 3] characters. *)
Theorem preview_length (n : nat) (txt : string) :
  String.length (preview n txt)
  = (if (n <? String.length txt)%nat then n + 3 else String.length txt)
  ∧ (String.length (preview n txt) ≤ n + 3)%nat
  ∧ String.prefix (substring 0 n txt) (preview n txt) = true.
Proof.
  unfold preview. destruct (Nat.ltb_spec n (String.length txt)) as [Hlt|Hge].
  - rewrite length_append, length_substring_0 by lia. simpl.
    split; [done|]. split; [lia|]. apply prefix_substring_append.
  - split; [done|]. split; [lia|]. apply prefix_substring.
Qed.

Lemma before_entries_app l1 l2 :
  before_entries (l1 ++ l2) = before_entries l1 ++ before_entries l2.
Proof. apply omap_app. Qed.

Lemma before_entries_flat_map {A} (f : A → list Msg) l :
  (∀ x, before_entries (f x) = []) → before_entries (flat_map f l) = [].
Proof.
  intros H. induction l as [|x l IH]; simpl; [done|].
  by rewrite before_entries_app, H, IH.
Qed.

Lemma before_entries_before_msg (l : list (string * Frame)) :
  before_entries (flat_map before_msg l)
  = (λ kv, (kv.1, default "Unknown" (desc kv.2), preview 60 (first_text kv.2)))
      <$> filter (λ kv, String.prefix "COMM" kv.1 = true) l.
Proof.
  induction l as [|kv l IH]; simpl; [done|].
  rewrite before_entries_app, IH, filter_cons. unfold before_msg, is_comm.
  by destruct (String.prefix "COMM" kv.1).
Qed.

Lemma before_entries_report filepath audio :
  before_entries (report filepath audio)
  = (λ kv, (kv.1, default "Unknown" (desc kv.2), preview 60 (first_text kv.2)))
      <$> filter (λ kv, String.prefix "COMM" kv.1 = true) (sorted_items audio).
Proof.
  unfold report, before_msgs, classify_msgs. rewrite !before_entries_app.
  rewrite before_entries_before_msg, before_entries_flat_map; simpl.
  - by rewrite app_nil_r.
  - intros x. unfold classify_msg. by repeat case_match.
Qed.

Lemma before_entries_after_msgs audio : before_entries (after_msgs audio) = [].
Proof.
  apply before_entries_flat_map. intros x. unfold after_msg. by repeat case_match.
Qed.

Lemma leb_trans (a b c : string) :
  String.leb a b = true → String.leb b c = true → String.leb a c = true.
Proof.
  unfold String.leb. revert b c.
  induction a as [|x a IH]; intros [|y b] [|z c]; simpl; try done.
  unfold Ascii.compare.
  destruct (N.compare_spec (N_of_ascii x) (N_of_ascii y)) as [Hxy|Hxy|Hxy];
    destruct (N.compare_spec (N_of_ascii y) (N_of_ascii z)) as [Hyz|Hyz|Hyz];
    destruct (N.compare_spec (N_of_ascii x) (N_of_ascii z)) as [Hxz|Hxz|Hxz];
    try done; try lia.
  apply IH.
Qed.

Lemma Forall_insert_sorted (P : string * Frame → Prop) kv l :
  P kv → Forall P l → Forall P (insert_sorted kv l).
Proof.
  intros Hkv. induction 1 as [|kv' l Hkv' Hl IH]; simpl.
  - by repeat constructor.
  - destruct (String.leb kv.1 kv'.1); repeat constructor; done.
Qed.

Lemma insert_sorted_sorted kv l :
  StronglySorted key_le l → StronglySorted key_le (insert_sorted kv l).
Proof.
  induction 1 as [|kv' l Hl IH Hall]; simpl.
  - by repeat constructor.
  - destruct (String.leb kv.1 kv'.1) eqn:E.
    + constructor; [by constructor|]. constructor; [done|].
      eapply Forall_impl; [exact Hall|]. intros kv'' H. by eapply leb_trans.
    + constructor; [done|]. apply Forall_insert_sorted; [|done].
      unfold key_le. by destruct (String.leb_total kv.1 kv'.1) as [H|H]; [congruence|].
Qed.

Lemma insert_sorted_perm kv l : insert_sorted kv l ≡ₚ kv :: l.
Proof.
  induction l as [|kv' l IH]; simpl; [done|].
  destruct (String.leb kv.1 kv'.1); [done|]. by rewrite IH, Permutation_swap.
Qed.

Lemma sorted_items_sorted (audio : gmap string Frame) :
  StronglySorted key_le (sorted_items audio).
Proof.
  unfold sorted_items. induction (map_to_list audio) as [|kv l IH]; simpl; [constructor|].
  by apply insert_sorted_sorted.
Qed.

Lemma sorted_items_perm (audio : gmap string Frame) :
  sorted_items audio ≡ₚ map_to_list audio.
Proof.
  unfold sorted_items. induction (map_to_list audio) as [|kv l IH]; simpl; [done|].
  rewrite insert_sorted_perm. by constructor.
Qed.

Lemma StronglySorted_filter_keys (P : string * Frame → Prop) `{∀ kv, Decision (P kv)} l :
  StronglySorted key_le l → StronglySorted key_le (filter P l).
Proof.
  induction 1 as [|kv l Hl IH Hall]; [constructor|].
  rewrite filter_cons. case_decide; [|done].
  constructor; [done|]. apply Forall_forall. intros kv' [_ Hin]%list_elem_of_filter.
  by apply (proj1 (Forall_forall _ _) Hall).
Qed.

(** The BEFORE listing of a run on a file that loads: the entries the run
    prints are, in the order printed, those of the COMM frames of the file
    in ascending order of their keys, each frame once, with its description
    (or "Unknown") and the preview of its text at 60 characters. *)
Theorem before_listing_sorted_and_complete filepath dry_run w
    (audio : gmap string Frame) :
  disk w !! filepath = Some (Tagged audio) →
  ∃ out items,
    stdout (fix_comment_fields filepath dry_run w).1 = stdout w ++ out
    ∧ before_entries out
      = (λ kv, (kv.1, default "Unknown" (desc kv.2), preview 60 (first_text kv.2)))
          <$> items
    ∧ StronglySorted key_le items
    ∧ items ≡ₚ filter (λ kv, String.prefix "COMM" kv.1 = true) (map_to_list audio).
Proof.
  intros H.
  assert (Hitems :
    StronglySorted key_le
      (filter (λ kv, String.prefix "COMM" kv.1 = true) (sorted_items audio))
    ∧ filter (λ kv, String.prefix "COMM" kv.1 = true) (sorted_items audio)
      ≡ₚ filter (λ kv, String.prefix "COMM" kv.1 = true) (map_to_list audio)).
  { split; [apply StronglySorted_filter_keys, sorted_items_sorted|].
    by rewrite sorted_items_perm. }
  fix_cases filepath dry_run w audio' Hload Hrm; cbn [fst stdout];
    try (by destruct (Hload audio)); simplify_eq;
    eexists _, _; (split; [done|]);
    rewrite ?before_entries_app, ?before_entries_report, ?before_entries_after_msgs;
    simpl; rewrite ?app_nil_r; (split; [done|]); exact Hitems.
Qed.

Lemma before_listing_sorted_and_complete_witness :
  ∃ out items,
    stdout (fix_comment_fields "song.mp3" true scenario_world).1
      = stdout scenario_world ++ out
    ∧ before_entries out
      = (λ kv, (kv.1, default "Unknown" (desc kv.2), preview 60 (first_text kv.2)))
          <$> items
    ∧ StronglySorted key_le items
    ∧ items ≡ₚ filter (λ kv, String.prefix "COMM" kv.1 = true) (map_to_list scenario_tags).
Proof.
  apply (before_listing_sorted_and_complete "song.mp3" true scenario_world scenario_tags).
  reflexivity.
Defined.
